(** * Wave Runner (src/App.tsx): the game engine, embedded and verified

    The React component [App] keeps the whole game in [useState] cells and
    changes them from four interval callbacks, one delayed callback and the
    click handler.  Every callback runs to completion, so each one is
    modelled as a function from the state before it to the state after it.

    Numbers.  The source works on JavaScript numbers.  Counters that only
    ever hold integers ([combo], [level], [lives], [direction], the sweep
    position, grid indices) are [Z]; quantities that take fractional values
    ([difficulty], and through it [score], [highScore], [speed]) are exact
    rationals [Q].  Binary64 arithmetic is exact on the halves and integers
    that [difficulty] and [score] hold.  The column index of the ZIGZAG and
    CHAOS patterns is a floor of a sum of fractions, which rounding can move
    across an integer: these sums are rounded to binary64 after every
    operation ([round64]).  The rounding of [speed * 0.9] and of the
    products [Math.random() * rows] and [Math.random() * cols] is not
    modelled.  The integer remainder [%] is [Z.rem]: like the JavaScript
    operator it truncates, so its result has the sign of the dividend. *)

From Stdlib Require Import ZArith QArith Qround Qminmax Qabs Qpower Lia Lqa Bool.
From stdpp Require Import base list option numbers gmap strings.

Local Open Scope Z_scope.

(** ** JavaScript arrays of booleans *)

Module JsArray.

(** An array is an object: a [length] and a store of properties.  The
    elements are the properties whose key is an index [0 <= k < length];
    a key that is a negative integer is an ordinary property and no
    element. *)
Record t := mk { length : Z; props : gmap Z bool }.

(** [Array(n).fill(v)] *)
Definition fill (n : Z) (v : bool) : t :=
  mk n (list_to_map ((fun k => (k, v)) <$> seqZ 0 n)).

(** [a[k]]; [None] is [undefined]. *)
Definition get (a : t) (k : Z) : option bool := props a !! k.

(** [a[k] = v] for an integer [k]: an index at or beyond [length] extends
    the array, a negative key leaves [length] alone. *)
Definition set (a : t) (k : Z) (v : bool) : t :=
  mk (if 0 <=? k then Z.max (length a) (k + 1) else length a)
     (<[k := v]> (props a)).

(** Truthiness of [a[k]], as tested by [&& grid[row][col]] and by the
    [isActive] property of a rendered cell. *)
Definition truthy (a : t) (k : Z) : bool :=
  match get a k with Some true => true | _ => false end.

(** The indices that [a.map(...)] visits and whose cell is lit. *)
Definition lit_columns (a : t) : list Z :=
  List.filter (truthy a) (seqZ 0 (length a)).

End JsArray.

(** ** Constants of the component *)

Definition rows : Z := 15.
Definition cols : Z := 20.
Definition waveWidth : Z := 6.

Inductive WavePattern := NORMAL | SPLIT | ZIGZAG | CHAOS.

(** [Object.values(WAVE_PATTERNS)] *)
Definition patterns : list WavePattern := [NORMAL; SPLIT; ZIGZAG; CHAOS].

Abbreviation Grid := (list JsArray.t).

(** [grid[row]] for an integer [row]; [None] is [undefined]. *)
Definition grid_row (g : Grid) (row : Z) : option JsArray.t :=
  if row <? 0 then None else g !! Z.to_nat row.

(** [Array(rows).fill(null).map(() => Array(cols).fill(false))] *)
Definition createEmptyGrid : Grid :=
  replicate (Z.to_nat rows) (JsArray.fill cols false).

(** ** Numeric helpers of the float-valued patterns *)

(** [x < y] on rationals. *)
Definition Qlt_bool (x y : Q) : bool := negb (Qle_bool y x).

(** Truncation toward zero. *)
Definition Qtrunc (q : Q) : Z :=
  if Qle_bool 0 q then Qfloor q else Qceiling q.

(** [x % y] on non-integers: [x - y * trunc (x / y)]. *)
Definition Qrem (x y : Q) : Q := (x - y * inject_Z (Qtrunc (x / y)))%Q.

(** Binary64: the value of a finite double is [m * 2^e] for integers [m]
    and [e] with [|m| < 2^53] and [e >= -1074].  Every arithmetic operation
    returns the double nearest to the exact result, a tie going to the even
    [m]. *)

(** [floor (log2 a)] for a positive [a]. *)
Definition ilog2 (a : Q) : Z :=
  let k := Z.log2 (Qnum a) - Z.log2 (Z.pos (Qden a)) in
  if Qlt_bool a (2 ^ k) then k - 1 else k.

(** The nearest integer, a tie going to the even one. *)
Definition round_half_even (t : Q) : Z :=
  let f := Qfloor t in
  match (t - inject_Z f ?= 1 # 2)%Q with
  | Lt => f
  | Gt => f + 1
  | Eq => if Z.even f then f else f + 1
  end.

(** The double nearest to [x]: [x] is rounded at its last place [2^e],
    53 bits below its leading bit and not below [2^-1074].  Numbers beyond
    the largest double, which round to [Infinity], do not occur here. *)
Definition round64 (x : Q) : Q :=
  let e := Z.max (ilog2 (Qabs x) - 52) (-1074) in
  (inject_Z (round_half_even (x / 2 ^ e)) * 2 ^ e)%Q.

(** [x + y], [x - y] and [x * y] on doubles. *)
Definition fadd (x y : Q) : Q := round64 (x + y).
Definition fsub (x y : Q) : Q := round64 (x - y).
Definition fmul (x y : Q) : Q := round64 (x * y).

(** [Math.sin(i * 0.5) * 3] at the row indices [i = 0 .. rows-1], the only
    arguments the loop passes, to six decimals; row 0 is exactly 0.  The
    value is only observed through [Math.floor] of its rounded sum with
    integers, and each entry is far enough from an integer for six
    decimals to determine that floor. *)
Definition zigzag_offset (i : Z) : Q :=
  match i with
  | 0 => 0%Q
  | 1 => (1438277 # 1000000)%Q
  | 2 => (2524413 # 1000000)%Q
  | 3 => (2992485 # 1000000)%Q
  | 4 => (2727892 # 1000000)%Q
  | 5 => (1795416 # 1000000)%Q
  | 6 => (423360 # 1000000)%Q
  | 7 => (- (1052350 # 1000000))%Q
  | 8 => (- (2270407 # 1000000))%Q
  | 9 => (- (2932590 # 1000000))%Q
  | 10 => (- (2876773 # 1000000))%Q
  | 11 => (- (2116621 # 1000000))%Q
  | 12 => (- (838246 # 1000000))%Q
  | 13 => (645360 # 1000000)%Q
  | 14 => (1970960 # 1000000)%Q
  | _ => 0%Q
  end.

(** ** The wave generator: [updateWavePattern] *)

(** The body of a [for (let j = 0; j < waveWidth; j++)] loop, run on one
    row: [body j] is applied for [j = 0, 1, ..., waveWidth - 1] in order. *)
Definition for_j (body : Z -> JsArray.t -> JsArray.t) (a : JsArray.t) : JsArray.t :=
  foldl (fun acc j => body j acc) a (seqZ 0 waveWidth).

(** [for (let i = 0; i < rows; i++)] over [newGrid[i]].  The generator is
    only ever called on a fresh [rows] by [cols] grid, so [newGrid[i]] is
    defined for every [i] the loop visits. *)
Definition for_i (body : Z -> JsArray.t -> JsArray.t) (g : Grid) : Grid :=
  foldl (fun acc i => alter (body i) (Z.to_nat i) acc) g (seqZ 0 rows).

(** The guarded write of the ZIGZAG and CHAOS cases. *)
Definition set_checked (col : Z) (a : JsArray.t) : JsArray.t :=
  if (0 <=? col) && (col <? cols) then JsArray.set a col true else a.

(** [Math.floor((position + j + offset + cols) % cols)]: the three
    additions are rounded one after the other; [%] and [Math.floor] are
    exact. *)
Definition offset_col (position j : Z) (offset : Q) : Z :=
  Qfloor (Qrem (fadd (fadd (fadd (inject_Z position) (inject_Z j)) offset)
                     (inject_Z cols))
               (inject_Z cols)).

(** [random i] is the value [Math.random()] returns in row [i] of the CHAOS
    case. *)
Definition updateWavePattern (wavePattern : WavePattern) (direction : Z)
    (random : Z -> Q) (position : Z) (newGrid : Grid) : Grid :=
  match wavePattern with
  | SPLIT =>
      for_i (fun i => for_j (fun j a =>
        let col1 := Z.rem (position + j) cols in
        let col2 := Z.rem ((cols - 1) - (position + j)) cols in
        JsArray.set (JsArray.set a col1 true) col2 true)) newGrid
  | ZIGZAG =>
      for_i (fun i =>
        let offset := zigzag_offset i in
        for_j (fun j => set_checked (offset_col position j offset))) newGrid
  | CHAOS =>
      for_i (fun i =>
        let offset := fsub (fmul (random i) 4) 2 in
        for_j (fun j => set_checked (offset_col position j offset))) newGrid
  | NORMAL =>
      for_i (fun i => for_j (fun j a =>
        let col := if direction =? 1
                   then Z.rem (position + j) cols
                   else Z.rem ((cols - 1) - (position + j)) cols in
        JsArray.set a col true)) newGrid
  end.

(** The grid one wave tick draws: the generator run on a fresh grid. *)
Definition generate (wavePattern : WavePattern) (direction : Z)
    (random : Z -> Q) (position : Z) : Grid :=
  updateWavePattern wavePattern direction random position createEmptyGrid.

(** The lit columns of row [i] of a grid. *)
Definition lit_in_row (g : Grid) (i : Z) : list Z :=
  match grid_row g i with
  | Some a => JsArray.lit_columns a
  | None => []
  end.

(** ** The state of the component *)

Module TargetCell.
Record t := mk { row : Z; col : Z }.
End TargetCell.

(** One field per [useState] cell of [App]. *)
Record State := mkState {
  grid : Grid;
  currentColor : Z;
  isPlaying : bool;
  speed : Q;
  direction : Z;
  score : Q;
  highScore : Q;
  level : Z;
  combo : Z;
  targetCell : option TargetCell.t;
  lives : Z;
  gameOver : bool;
  wavePattern : WavePattern;
  difficulty : Q;
  powerUpActive : bool
}.

(** The values the [useState] calls start from. *)
Definition useState_defaults : State :=
  mkState [] 0 true 100 1 0 0 1 0 None 3 false NORMAL 1 false.

(** A callback is a state transformer; callbacks run one after another. *)
Definition Cmd := State -> State.

Definition skip : Cmd := fun s => s.
Definition andThen (c1 c2 : Cmd) : Cmd := fun s => c2 (c1 s).
Definition when (b : bool) (c : Cmd) : Cmd := if b then c else skip.

Declare Scope cmd_scope.
Delimit Scope cmd_scope with cmd.
Bind Scope cmd_scope with Cmd.
Notation "c1 ;; c2" := (andThen c1 c2)
  (at level 100, c2 at level 200, right associativity) : cmd_scope.

(** The state setters, each applied to an updater function as in
    [setScore(prev => prev + points)]; [setCombo(0)] is the constant
    updater. *)
Definition update (s : State) g cc ip sp di sc hs lv co tc li go wp df pu : State :=
  mkState (g (grid s)) (cc (currentColor s)) (ip (isPlaying s)) (sp (speed s))
          (di (direction s)) (sc (score s)) (hs (highScore s)) (lv (level s))
          (co (combo s)) (tc (targetCell s)) (li (lives s)) (go (gameOver s))
          (wp (wavePattern s)) (df (difficulty s)) (pu (powerUpActive s)).

Definition setGrid (f : Grid -> Grid) : Cmd :=
  fun s => update s f id id id id id id id id id id id id id id.
Definition setCurrentColor (f : Z -> Z) : Cmd :=
  fun s => update s id f id id id id id id id id id id id id id.
Definition setIsPlaying (f : bool -> bool) : Cmd :=
  fun s => update s id id f id id id id id id id id id id id id.
Definition setSpeed (f : Q -> Q) : Cmd :=
  fun s => update s id id id f id id id id id id id id id id id.
Definition setDirection (f : Z -> Z) : Cmd :=
  fun s => update s id id id id f id id id id id id id id id id.
Definition setScore (f : Q -> Q) : Cmd :=
  fun s => update s id id id id id f id id id id id id id id id.
Definition setHighScore (f : Q -> Q) : Cmd :=
  fun s => update s id id id id id id f id id id id id id id id.
Definition setLevel (f : Z -> Z) : Cmd :=
  fun s => update s id id id id id id id f id id id id id id id.
Definition setCombo (f : Z -> Z) : Cmd :=
  fun s => update s id id id id id id id id f id id id id id id.
Definition setTargetCell (f : option TargetCell.t -> option TargetCell.t) : Cmd :=
  fun s => update s id id id id id id id id id f id id id id id.
Definition setLives (f : Z -> Z) : Cmd :=
  fun s => update s id id id id id id id id id id f id id id id.
Definition setGameOver (f : bool -> bool) : Cmd :=
  fun s => update s id id id id id id id id id id id f id id id.
Definition setWavePattern (f : WavePattern -> WavePattern) : Cmd :=
  fun s => update s id id id id id id id id id id id id f id id.
Definition setDifficulty (f : Q -> Q) : Cmd :=
  fun s => update s id id id id id id id id id id id id id f id.
Definition setPowerUpActive (f : bool -> bool) : Cmd :=
  fun s => update s id id id id id id id id id id id id id id f.

(** The values [Math.random()] returns to one callback: one for the row and
    one for the column of a new target, one for the choice of a pattern.
    [Math.random()] returns a value in [0, 1). *)
Record Draws := mkDraws { row_draw : Q; col_draw : Q; pattern_draw : Q }.

Definition unit_draw (r : Q) : Prop := (0 <= r /\ r < 1)%Q.

Definition valid_draws (d : Draws) : Prop :=
  unit_draw (row_draw d) /\ unit_draw (col_draw d) /\ unit_draw (pattern_draw d).

(** ** The callbacks *)

(** [initializeGrid] *)
Definition initializeGrid : Cmd :=
  (setGrid (fun _ => createEmptyGrid) ;;
   setScore (fun _ => 0%Q) ;;
   setLevel (fun _ => 1) ;;
   setCombo (fun _ => 0) ;;
   setLives (fun _ => 3) ;;
   setGameOver (fun _ => false) ;;
   setSpeed (fun _ => 100%Q) ;;
   setWavePattern (fun _ => NORMAL) ;;
   setDifficulty (fun _ => 1%Q) ;;
   setPowerUpActive (fun _ => false))%cmd.

(** [generateNewTarget] *)
Definition generateNewTarget (d : Draws) : Cmd :=
  let row := Qfloor (row_draw d * inject_Z rows) in
  let col := Qfloor (col_draw d * inject_Z cols) in
  setTargetCell (fun _ => Some (TargetCell.mk row col)).

(** The updater both miss paths pass to [setLives]; [score] is the score
    the enclosing callback closed over. *)
Definition loseLife (score : Q) : Cmd :=
  fun s =>
    let newLives := lives s - 1 in
    (when (newLives <=? 0)
       (setGameOver (fun _ => true) ;;
        setHighScore (fun current => Qmax current score)) ;;
     setLives (fun _ => newLives))%cmd s.

(** The callback of the [targetCheckId] interval. *)
Definition targetCheck (d : Draws) : Cmd :=
  fun s =>
    match targetCell s with
    | Some _ =>
        if negb (powerUpActive s)
        then (loseLife (score s) ;; generateNewTarget d)%cmd s
        else s
    | None => s
    end.

(** [patterns[Math.floor(Math.random() * patterns.length)]]; the index is
    in range for every value [Math.random()] can return. *)
Definition randomPattern (d : Draws) : WavePattern :=
  let index := Qfloor (pattern_draw d * inject_Z (Z.of_nat (List.length patterns))) in
  if index <? 0 then NORMAL else default NORMAL (patterns !! Z.to_nat index).

(** The updater the hit path passes to [setLevel]. *)
Definition levelUp (d : Draws) : Cmd :=
  fun s =>
    let newLevel := level s + 1 in
    (when (Z.rem newLevel 3 =? 0)
       (setDifficulty (fun d => Qmin (d + (1 # 2)) 3) ;;
        setSpeed (fun s => Qmax (s * (9 # 10)) 50)) ;;
     when (Z.rem newLevel 5 =? 0)
       (setWavePattern (fun _ => randomPattern d)) ;;
     setLevel (fun _ => newLevel))%cmd s.

(** The points of a hit, from the combo, level and difficulty the handler
    closed over. *)
Definition hitPoints (combo level : Z) (difficulty : Q) : Q :=
  let basePoints := 100%Q in
  let comboMultiplier := Z.min (combo + 1) 5 in
  let levelMultiplier := level in
  let difficultyMultiplier := difficulty in
  (basePoints * inject_Z comboMultiplier * inject_Z levelMultiplier
   * difficultyMultiplier)%Q.

(** The "Successful hit" branch of [handleCellClick]. *)
Definition hit (d : Draws) : Cmd :=
  fun s =>
    let points := hitPoints (combo s) (level s) (difficulty s) in
    (setScore (fun prev => prev + points)%Q ;;
     setCombo (fun prev => prev + 1) ;;
     when (Qle_bool (inject_Z (level s * 1000)) (score s + points))
       (levelUp d) ;;
     generateNewTarget d)%cmd s.

(** The [else] branch of [handleCellClick]. *)
Definition miss : Cmd :=
  fun s =>
    (setCombo (fun _ => 0) ;;
     when (negb (powerUpActive s)) (loseLife (score s)))%cmd s.

(** How a click is resolved. [Throws] is the [TypeError] of reading
    [grid[row][col]] when [grid[row]] is [undefined]; it happens before any
    setter is called. *)
Inductive Outcome := Ignored | Hit | Miss | Throws.

Definition resolveClick (s : State) (row col : Z) : Outcome :=
  if negb (isPlaying s) || gameOver s then Ignored else
  match targetCell s with
  | None => Ignored
  | Some t =>
      if (row =? TargetCell.row t) && (col =? TargetCell.col t) then
        match grid_row (grid s) row with
        | None => Throws
        | Some a => if JsArray.truthy a col then Hit else Miss
        end
      else Miss
  end.

(** [handleCellClick] *)
Definition handleCellClick (row col : Z) (d : Draws) : Cmd :=
  fun s =>
    match resolveClick s row col with
    | Hit => hit d s
    | Miss => miss s
    | Ignored | Throws => s
    end.

(** ** The scheduler

    The timers exist only while [isPlaying && !gameOver]; the delayed
    callback that ends a shield is never cancelled.  The counter [position]
    is a local of the effect that installs the timers and restarts from [0]
    whenever that effect is re-run; the model leaves its value to the
    environment, so a wave tick carries the value of the counter it fires
    at. *)

Inductive Event :=
  | WaveTick (position : Z) (random : Z -> Q)
  | ColorTick
  | TargetCheck (d : Draws)
  | PowerUpRoll (r : Q)
  | PowerUpOff
  | Click (row col : Z) (d : Draws)
  | TogglePlay (d : Draws)
  | NewGame (d : Draws).

Definition timersRunning (s : State) : bool := isPlaying s && negb (gameOver s).

(** The callback of the [intervalId] interval, fired at the counter value
    [position].  The updater passed to [setGrid] is run when React renders,
    after the callback has returned: it reads the variable [position] the
    callback has advanced by then, so the grid is drawn at
    [(position + 1) % cols].  [updateWavePattern] is the closure of the
    render that installed the timers: it sees the pattern and the
    direction from before the tick. *)
Definition waveTick (position : Z) (random : Z -> Q) : Cmd :=
  fun s =>
    (setGrid (fun prevGrid =>
                generate (wavePattern s) (direction s) random
                         (Z.rem (position + 1) cols)) ;;
     when (Z.rem (position + 1) cols =? 0) (setDirection (fun prev => prev * -1)))%cmd s.

(** The callback of the [colorIntervalId] interval; [COLORS.length] is 5. *)
Definition colorTick : Cmd :=
  setCurrentColor (fun prev => Z.rem (prev + 1) 5).

(** The callback of the [powerUpTimeoutId] interval; [r] is the value of
    [Math.random()]. *)
Definition powerUpRoll (r : Q) : Cmd :=
  when (Qlt_bool r (1 # 10)) (setPowerUpActive (fun _ => true)).

(** The effect that spawns a target, run after [isPlaying] or [gameOver]
    changed from [before]. *)
Definition spawnEffect (before : State) (d : Draws) : Cmd :=
  fun s =>
    when ((negb (eqb (isPlaying before) (isPlaying s))
           || negb (eqb (gameOver before) (gameOver s)))
          && isPlaying s && negb (gameOver s))
      (generateNewTarget d) s.

(** One event of the component: the callback it runs, then the effect
    that reacts to the change.  A timer whose interval is not installed
    does not fire. *)
Definition step (s : State) (ev : Event) : State :=
  match ev with
  | WaveTick position random =>
      when (timersRunning s) (waveTick position random) s
  | ColorTick => when (timersRunning s) colorTick s
  | TargetCheck d => when (timersRunning s) (targetCheck d) s
  | PowerUpRoll r => when (timersRunning s) (powerUpRoll r) s
  | PowerUpOff => setPowerUpActive (fun _ => false) s
  | Click row col d => handleCellClick row col d s
  | TogglePlay d =>
      (* the button is disabled while the game is over *)
      when (negb (gameOver s)) (setIsPlaying negb ;; spawnEffect s d)%cmd s
  | NewGame d => (initializeGrid ;; spawnEffect s d)%cmd s
  end.

Definition run (s : State) (evs : list Event) : State := foldl step s evs.

(** The state once the component is mounted: the [useState] values, then
    the two mount effects. *)
Definition mounted (d : Draws) : State :=
  (initializeGrid ;; generateNewTarget d)%cmd useState_defaults.

(** The events that can occur: the sweep position is on the grid and every
    draw is a value of [Math.random()]. *)
Definition valid_event (ev : Event) : Prop :=
  match ev with
  | WaveTick position random => 0 <= position < cols /\ forall i, unit_draw (random i)
  | PowerUpRoll r => unit_draw r
  | TargetCheck d | Click _ _ d | TogglePlay d | NewGame d => valid_draws d
  | ColorTick | PowerUpOff => True
  end.

(** The states the mounted component can be in. *)
Inductive reachable : State -> Prop :=
  | reach_mounted d : valid_draws d -> reachable (mounted d)
  | reach_step s ev : reachable s -> valid_event ev -> reachable (step s ev).

(** "New Game" and "Play Again". *)
Definition is_reset (ev : Event) : bool :=
  match ev with NewGame _ => true | _ => false end.

(** The cell at ([row], [col]) is lit: [grid[row]] exists and
    [grid[row][col]] is truthy. *)
Definition lit (g : Grid) (row col : Z) : bool :=
  match grid_row g row with
  | Some a => JsArray.truthy a col
  | None => false
  end.

(** * Predicates, specification and example states of the statements *)

(** ** The wave generator *)

(** A run of writes [a[k] = true]. *)
Definition write_all (ks : list Z) (a : JsArray.t) : JsArray.t :=
  foldl (fun acc k => JsArray.set acc k true) a ks.

(** The indices one pass of the inner loop writes, as the NORMAL and the
    SPLIT case compute them. *)
Definition normal_targets (direction position j : Z) : list Z :=
  [if direction =? 1
   then Z.rem (position + j) cols
   else Z.rem ((cols - 1) - (position + j)) cols].

Definition split_targets (position j : Z) : list Z :=
  [Z.rem (position + j) cols; Z.rem ((cols - 1) - (position + j)) cols].

(** A row of the SPLIT pattern, and the test that its cells agree with
    their mirror images. *)
Definition split_row (position : Z) : JsArray.t :=
  write_all (seqZ 0 waveWidth ≫= split_targets position) (JsArray.fill cols false).

Definition split_row_symmetric (position : Z) : bool :=
  forallb (fun c => eqb (JsArray.truthy (split_row position) c)
                        (JsArray.truthy (split_row position) (cols - 1 - c)))
          (seqZ 0 cols).

(** What the specification asks of the two patterns, in its own words. *)
Module Spec.

(** "[(position+j) % cols] if direction=+1, mirrored
    [(cols-1)-(position+j)] if direction=-1, indices modulo [cols]" *)
Definition NORMAL_columns (direction position : Z) : list Z :=
  (fun j => if direction =? 1
            then (position + j) mod cols
            else ((cols - 1) - (position + j)) mod cols) <$> seqZ 0 waveWidth.

(** "the lit-column set is invariant under the column reflection
    [c -> cols-1-c]" *)
Definition reflection_invariant (lit_cols : list Z) : Prop :=
  forall c, 0 <= c < cols -> (c ∈ lit_cols <-> (cols - 1 - c) ∈ lit_cols).

End Spec.

(** ** Misses *)

(** The state fields a miss may not touch. *)
Definition miss_frame (s s' : State) : Prop :=
  score s' = score s /\ level s' = level s /\ wavePattern s' = wavePattern s
  /\ speed s' = speed s /\ difficulty s' = difficulty s
  /\ grid s' = grid s /\ currentColor s' = currentColor s
  /\ isPlaying s' = isPlaying s /\ direction s' = direction s
  /\ powerUpActive s' = powerUpActive s.

(** A miss: a click that is resolved as one, or a run of the target-expiry
    callback. *)
Definition is_miss (s : State) (ev : Event) : Prop :=
  match ev with
  | Click row col _ => resolveClick s row col = Miss
  | TargetCheck _ => True
  | _ => False
  end.

(** ** Reachable states *)

(** The grid has its [rows] rows, the target lies on the grid, the combo is
    not negative, the game is over exactly when no life is left, and a
    target is active whenever the timers run. *)
Definition well_formed (s : State) : Prop :=
  List.length (grid s) = Z.to_nat rows
  /\ (forall t, targetCell s = Some t ->
        0 <= TargetCell.row t < rows /\ 0 <= TargetCell.col t < cols)
  /\ 0 <= combo s
  /\ ((gameOver s = false /\ 1 <= lives s <= 3)
      \/ (gameOver s = true /\ lives s = 0))
  /\ (timersRunning s = true -> is_Some (targetCell s)).

(** ** Game over *)

(** The result of a finished game is kept from [s] to [s']. *)
Definition keeps_result (s s' : State) : Prop :=
  gameOver s' = true /\ score s' = score s /\ lives s' = lives s
  /\ level s' = level s /\ highScore s' = highScore s.

Definition no_reset (evs : list Event) : bool :=
  forallb (fun ev => negb (is_reset ev)) evs.

(** ** Streaks of hits *)

(** Every click of the run is resolved as a hit, and the run has no reset. *)
Fixpoint hit_streak (s : State) (evs : list Event) : Prop :=
  match evs with
  | [] => True
  | ev :: evs' =>
      match ev with
      | Click row col _ => resolveClick s row col = Hit
      | NewGame _ => False
      | _ => True
      end /\ hit_streak (step s ev) evs'
  end.

(** The number of clicks in a run. *)
Fixpoint clicks (evs : list Event) : Z :=
  match evs with
  | [] => 0
  | Click _ _ _ :: evs' => 1 + clicks evs'
  | _ :: evs' => clicks evs'
  end.

(** ** Example states and runs *)

(** The draws of the CHAOS rows are all 0; the draws of a callback are 0
    for the row, 1/16 for the column and 0 for the pattern: targets spawn
    at (0, 1) and the pattern drawn at a level-up is NORMAL. *)
Definition no_random : Z -> Q := fun _ => 0%Q.
Definition draws1 : Draws := mkDraws 0 (1 # 16) 0.

(** The component mounted, then the first wave tick: the counter is 0 and
    the grid is drawn at position 1, which lights columns 1-6 of every row;
    the target is at (0, 1). *)
Definition lit_state : State := step (mounted draws1) (WaveTick 0 no_random).

(** [lit_state] after a click on the target: one hit. *)
Definition after_one_hit : State := step lit_state (Click 0 1 draws1).

(** [n] rounds of a first wave tick and a click on (0, 1).  A hit writes
    the score and the target, so the timers are installed anew and the
    counter of the next tick is 0 again. *)
Fixpoint rounds (n : nat) : list Event :=
  match n with
  | O => []
  | S n' => WaveTick 0 no_random :: Click 0 1 draws1 :: rounds n'
  end.

(** What a round starts from. *)
Definition round_ready (s : State) : Prop :=
  isPlaying s = true /\ gameOver s = false
  /\ targetCell s = Some (TargetCell.mk 0 1)
  /\ wavePattern s = NORMAL /\ direction s = 1.

(** Eight hits in a row from the mounted state reach level 6, where the
    difficulty is 2 and the speed 81: the target expires after 1500 ms,
    before the sweep of 20 ticks of 81 ms ends.  No click follows the last
    hit: 18 wave ticks and a colour tick fire before the target expires. *)
Definition expiry_run : list Event :=
  rounds 8 ++ ((fun p => WaveTick p no_random) <$> seqZ 0 18) ++ [ColorTick].

Definition s_level6 : State := run (mounted draws1) expiry_run.

(** Level 3 at difficulty 1.5 with 2900 points, the target at (4, 5) lit;
    the combo is 2 in the first state and 4 in the second. *)
Definition s_combo2 : State :=
  mkState (generate NORMAL 1 no_random 0) 0 true 90 1 2900 0 3 2
          (Some (TargetCell.mk 4 5)) 3 false NORMAL (3 # 2) false.

Definition s_overshoot : State :=
  mkState (generate NORMAL 1 no_random 0) 0 true 90 1 2900 0 3 4
          (Some (TargetCell.mk 4 5)) 3 false NORMAL (3 # 2) false.

(** A click away from the target of [s_combo2]. *)
Definition s_wrong_cell : Event := Click 0 0 draws1.

(** Two misses after [lit_state]: one life left. *)
Definition s_last_life : State :=
  run lit_state [Click 1 1 draws1; Click 1 1 draws1].

Definition after_game_over : list Event :=
  [Click 0 1 draws1; TargetCheck draws1; WaveTick 3 no_random; PowerUpRoll 0;
   PowerUpOff; ColorTick; TogglePlay draws1; Click 2 2 draws1].

(** ** Counting the lit cells *)

(** The number of lit cells of row [i]. *)
Definition lit_count (g : Grid) (i : Z) : nat := List.length (lit_in_row g i).

(** A row of the NORMAL pattern. *)
Definition normal_row (direction position : Z) : JsArray.t :=
  write_all (seqZ 0 waveWidth ≫= normal_targets direction position)
            (JsArray.fill cols false).

Definition normal_counts_ok (position : Z) : bool :=
  (List.length (JsArray.lit_columns (normal_row 1 position)) =? 6)%nat
  && (List.length (JsArray.lit_columns (normal_row (-1) position))
      =? Z.to_nat (Z.min waveWidth (cols - position)))%nat.

(** The offset of row [i] of the ZIGZAG pattern and the multiples of
    [1/256] next to it lie between the same two integers: rounding a sum
    to binary64 cannot change its floor. *)
Definition zigzag_margin_ok (i : Z) : bool :=
  let s := Qfloor (zigzag_offset i) in
  let a := Qfloor (zigzag_offset i * 256) in
  (- cols <=? s) && (s <? 2 ^ 30) && (256 * s <=? a) && (a + 1 <=? 256 * s + 255).

(** ** Numeric ranges of the state *)

(** The ranges the counters stay in, the shape of the grid, and the high
    score covering the score of a finished game. *)
Definition in_bounds (s : State) : Prop :=
  1 <= level s
  /\ (1 <= difficulty s /\ difficulty s <= 3)%Q
  /\ (50 <= speed s /\ speed s <= 100)%Q
  /\ (0 <= score s)%Q
  /\ (0 <= highScore s)%Q
  /\ (direction s = 1 \/ direction s = -1)
  /\ 0 <= currentColor s < 5
  /\ (gameOver s = true -> (score s <= highScore s)%Q)
  /\ Forall (fun a => JsArray.length a = cols) (grid s).

(** The difficulty a level stands for: one half more every third level,
    at most 3. *)
Definition difficultyAt (level : Z) : Q :=
  Qmin (1 + inject_Z (level / 3) * (1 # 2)) 3.

(** [s_last_life] under a shield. *)
Definition s_shielded : State := setPowerUpActive (fun _ => true) s_last_life.

(** [lit_state] paused. *)
Definition s_paused : State := step lit_state (TogglePlay draws1).

(** ** What the component renders *)

Definition COLORS : list string :=
  ["#8A2BE2"; "#FF1493"; "#4169E1"; "#32CD32"; "#FFD700"]%string.

(** [COLORS[currentColor]]; [None] is [undefined]. *)
Definition cellColor (s : State) : option string :=
  if currentColor s <? 0 then None else COLORS !! Z.to_nat (currentColor s).

(** [[...Array(lives)]], one entry per star: [Array(n)] throws a
    [RangeError] for a negative [n], which is [None] here. *)
Definition stars (lives : Z) : option (list Z) :=
  if lives <? 0 then None else Some (seqZ 0 lives).




(** [Math.round]: the nearest integer, halves upwards. *)
Definition Math_round (q : Q) : Z := Qfloor (q + (1 # 2)).

(** [Math.round(100 - (speed - 50) / 1.5)] *)
Definition waveSpeedPercent (s : State) : Z :=
  Math_round (100 - (speed s - 50) / (3 # 2)).

(** ** Targets, sweeps and shields *)

(** The target [generateNewTarget] spawns from the draws [d]. *)
Definition spawned (d : Draws) : TargetCell.t :=
  TargetCell.mk (Qfloor (row_draw d * inject_Z rows))
                (Qfloor (col_draw d * inject_Z cols)).

(** [Math.min(combo + 1, 5) * level * difficulty], the "Points Multiplier"
    of the statistics panel. *)
Definition pointsMultiplier (s : State) : Q :=
  (inject_Z (Z.min (combo s + 1) 5) * inject_Z (level s) * difficulty s)%Q.

(** The event leaves a shield alone: it is neither the delayed callback
    that ends it nor a new game. *)
Definition keeps_shield (ev : Event) : bool :=
  match ev with PowerUpOff | NewGame _ => false | _ => true end.

(** One sweep of the wave: a tick at each position, in order;
    [random p i] is the draw of row [i] at the tick of position [p]. *)
Definition sweep (random : Z -> Z -> Q) : list Event :=
  (fun p => WaveTick p (random p)) <$> seqZ 0 cols.

(** ** Proof tactics *)

(** Reads the fields of the states the setters have built, on demand: only
    the field asked for is computed. *)
Ltac fields :=
  cbn beta iota zeta delta
      [setGrid setCurrentColor setIsPlaying setSpeed setDirection setScore
       setHighScore setLevel setCombo setTargetCell setLives setGameOver
       setWavePattern setDifficulty setPowerUpActive update id
       grid currentColor isPlaying speed direction score highScore level combo
       targetCell lives gameOver wavePattern difficulty powerUpActive
       negb andb orb].

(** Opens a callback into its setters and tests, then reads the fields. *)
Ltac callback :=
  cbv delta [handleCellClick hit miss targetCheck loseLife levelUp
             generateNewTarget initializeGrid waveTick colorTick powerUpRoll
             spawnEffect timersRunning andThen when skip];
  fields.

(** Unfolds one step of the scheduler down to the callback it runs. *)
Ltac scheduler :=
  cbn [step is_miss is_reset valid_event run foldl hit_streak clicks rounds
       no_reset forallb] in *.

(** Splits on every test a goal still branches on. *)
Ltac branches :=
  repeat (match goal with
          | |- context [if ?b then _ else _] => destruct b eqn:?
          | |- context [match ?o with Some _ => _ | None => _ end] => destruct o eqn:?
          end; fields).

(** Turns the integers of a goal about rationals into rationals. *)
Ltac to_Q :=
  repeat (rewrite inject_Z_plus || rewrite inject_Z_mult || rewrite inject_Z_opp);
  change (inject_Z 256) with 256%Q; change (inject_Z 255) with 255%Q;
  change (inject_Z 1) with 1%Q; change (inject_Z 2) with 2%Q;
  change (inject_Z cols) with 20%Q.

(** Linear integer arithmetic with the powers of two written out. *)
Ltac pow_lia :=
  change (2 ^ 50) with 1125899906842624 in *;
  change (2 ^ 40) with 1099511627776 in *;
  change (2 ^ 30) with 1073741824 in *;
  unfold cols, waveWidth in *; lia.

(** * Properties of the wave generator *)

Lemma truthy_set a k c :
  JsArray.truthy (JsArray.set a k true) c
  = if decide (k = c) then true else JsArray.truthy a c.
Proof.
  unfold JsArray.truthy, JsArray.get, JsArray.set; simpl.
  rewrite lookup_insert. by destruct (decide (k = c)).
Qed.

Lemma truthy_write_all ks a c :
  JsArray.truthy (write_all ks a) c = true
  <-> JsArray.truthy a c = true \/ c ∈ ks.
Proof.
  revert a. induction ks as [|k ks IH]; intros a; simpl.
  - split; [by left | intros [?|H]; [done | by apply elem_of_nil in H]].
  - fold (write_all ks (JsArray.set a k true)). rewrite IH, truthy_set.
    rewrite elem_of_cons. destruct (decide (k = c)) as [->|Hne].
    + split; [intros _; right; by left | intros _; by left].
    + split; [intros [?|?]; [by left | right; by right] |].
      intros [?|[?|?]]; [by left | done | by right].
Qed.

Lemma length_write_all ks a :
  Forall (fun k => k < JsArray.length a) ks ->
  JsArray.length (write_all ks a) = JsArray.length a.
Proof.
  revert a. induction ks as [|k ks IH]; intros a Hks; simpl; [done|].
  apply Forall_cons in Hks as [Hk Hks].
  fold (write_all ks (JsArray.set a k true)).
  assert (Hlen : JsArray.length (JsArray.set a k true) = JsArray.length a).
  { unfold JsArray.set; simpl. destruct (0 <=? k); lia. }
  rewrite IH; [done | by rewrite Hlen].
Qed.

(** A [for j] loop whose body only writes [true] cells is one run of
    writes. *)
Lemma for_j_write_all (targets : Z -> list Z) a :
  for_j (fun j => write_all (targets j)) a
  = write_all (seqZ 0 waveWidth ≫= targets) a.
Proof.
  unfold for_j. generalize (seqZ 0 waveWidth). intros js. revert a.
  induction js as [|j js IH]; intros a; simpl; [done|].
  rewrite IH. unfold write_all. by rewrite foldl_app.
Qed.

Lemma truthy_fill n c : JsArray.truthy (JsArray.fill n false) c = false.
Proof.
  unfold JsArray.truthy, JsArray.get, JsArray.fill; simpl.
  destruct (list_to_map _ !! c) as [[]|] eqn:E; [|done..].
  apply elem_of_list_to_map_2, list_elem_of_fmap in E as (k & E & _).
  by inversion E.
Qed.

Lemma elem_of_lit_columns a c :
  c ∈ JsArray.lit_columns a
  <-> 0 <= c < JsArray.length a /\ JsArray.truthy a c = true.
Proof.
  unfold JsArray.lit_columns.
  rewrite list_elem_of_In, filter_In, <- list_elem_of_In, elem_of_seqZ.
  intuition lia.
Qed.

Lemma for_i_lookup_gen body (g : Grid) (m n : nat) :
  foldl (fun acc i => alter (body i) (Z.to_nat i) acc) g (seqZ 0 (Z.of_nat m)) !! n
  = if decide (n < m)%nat then body (Z.of_nat n) <$> g !! n else g !! n.
Proof.
  induction m as [|m IH].
  - rewrite seqZ_nil by lia. case_decide; [lia | done].
  - rewrite seqZ_S, foldl_app. simpl. rewrite Z.add_0_l, Nat2Z.id.
    rewrite list_lookup_alter.
    destruct (decide (m = n)) as [->|Hne];
      rewrite IH; repeat case_decide; try lia; done.
Qed.

(** Row [i] of the result of a [for i] loop is its body run on row [i]. *)
Lemma grid_row_for_i body g i :
  0 <= i < rows -> grid_row (for_i body g) i = body i <$> grid_row g i.
Proof.
  intros Hi. unfold grid_row, for_i.
  destruct (Z.ltb_spec i 0); [lia|].
  change rows with (Z.of_nat 15). rewrite for_i_lookup_gen.
  case_decide; [by rewrite Z2Nat.id by lia | unfold rows in Hi; lia].
Qed.

Lemma length_for_i body (g : Grid) : List.length (for_i body g) = List.length g.
Proof.
  unfold for_i. generalize (seqZ 0 rows). intros l. revert g.
  induction l as [|i l IH]; intros g; simpl; [done|].
  by rewrite IH, length_alter.
Qed.

Lemma grid_row_createEmptyGrid i :
  0 <= i < rows -> grid_row createEmptyGrid i = Some (JsArray.fill cols false).
Proof.
  intros Hi. unfold grid_row, createEmptyGrid.
  destruct (Z.ltb_spec i 0); [lia|].
  apply lookup_replicate_2. unfold rows in *. lia.
Qed.

Lemma rem_below_cols x : Z.rem x cols < cols.
Proof.
  unfold cols. Z.to_euclidean_division_equations. lia.
Qed.

(** Row [i] of a generated grid is the fresh row after the writes of the
    pattern; its length stays [cols]. *)
Lemma lit_in_row_writes (targets : Z -> list Z) g i c :
  0 <= i < rows ->
  grid_row g i = Some (write_all (seqZ 0 waveWidth ≫= targets) (JsArray.fill cols false)) ->
  Forall (fun k => k < cols) (seqZ 0 waveWidth ≫= targets) ->
  c ∈ lit_in_row g i
  <-> 0 <= c < cols /\ exists j, 0 <= j < waveWidth /\ c ∈ targets j.
Proof.
  intros Hi Hrow Hks. unfold lit_in_row. rewrite Hrow.
  rewrite elem_of_lit_columns, length_write_all by done.
  rewrite truthy_write_all, truthy_fill, list_elem_of_bind.
  simpl. split.
  - intros [Hc [?|(j & Hin & Hj)]]; try done. split; [done|].
    exists j. apply elem_of_seqZ in Hj. split; [lia | done].
  - intros [Hc (j & Hj & Hin)]. split; [done|]. right.
    exists j. split; [done | apply elem_of_seqZ; lia].
Qed.

Lemma grid_row_generate_NORMAL direction random position i :
  0 <= i < rows ->
  grid_row (generate NORMAL direction random position) i
  = Some (write_all (seqZ 0 waveWidth ≫= normal_targets direction position)
                    (JsArray.fill cols false)).
Proof.
  intros Hi. unfold generate, updateWavePattern.
  rewrite grid_row_for_i, grid_row_createEmptyGrid by done.
  exact (f_equal Some (for_j_write_all (normal_targets direction position) _)).
Qed.

Lemma grid_row_generate_SPLIT direction random position i :
  0 <= i < rows ->
  grid_row (generate SPLIT direction random position) i
  = Some (write_all (seqZ 0 waveWidth ≫= split_targets position)
                    (JsArray.fill cols false)).
Proof.
  intros Hi. unfold generate, updateWavePattern.
  rewrite grid_row_for_i, grid_row_createEmptyGrid by done.
  exact (f_equal Some (for_j_write_all (split_targets position) _)).
Qed.

Lemma targets_below_cols (targets : Z -> list Z) :
  (forall j, Forall (fun k => k < cols) (targets j)) ->
  Forall (fun k => k < cols) (seqZ 0 waveWidth ≫= targets).
Proof.
  intros H. apply Forall_forall. intros k Hk.
  apply list_elem_of_bind in Hk as (j & Hk & _).
  specialize (H j). rewrite Forall_forall in H. by apply H.
Qed.

(** NORMAL, any direction: the lit columns of a row are the in-range
    columns the loop computes. *)
Lemma NORMAL_lit direction random position i c :
  0 <= i < rows ->
  c ∈ lit_in_row (generate NORMAL direction random position) i
  <-> 0 <= c < cols /\ exists j, 0 <= j < waveWidth /\
        c = if direction =? 1
            then Z.rem (position + j) cols
            else Z.rem ((cols - 1) - (position + j)) cols.
Proof.
  intros Hi.
  rewrite (lit_in_row_writes (normal_targets direction position)); try done.
  - unfold normal_targets. by setoid_rewrite list_elem_of_singleton.
  - by apply grid_row_generate_NORMAL.
  - apply targets_below_cols. intros j. unfold normal_targets.
    apply Forall_singleton. destruct (direction =? 1); apply rem_below_cols.
Qed.

Lemma SPLIT_lit direction random position i c :
  0 <= i < rows ->
  c ∈ lit_in_row (generate SPLIT direction random position) i
  <-> 0 <= c < cols /\ exists j, 0 <= j < waveWidth /\
        (c = Z.rem (position + j) cols
         \/ c = Z.rem ((cols - 1) - (position + j)) cols).
Proof.
  intros Hi.
  rewrite (lit_in_row_writes (split_targets position)); try done.
  - unfold split_targets. setoid_rewrite elem_of_cons.
    setoid_rewrite list_elem_of_singleton. done.
  - by apply grid_row_generate_SPLIT.
  - apply targets_below_cols. intros j. unfold split_targets.
    repeat constructor; apply rem_below_cols.
Qed.

(** NORMAL, direction [+1]: at every position of the sweep every row is lit
    in exactly the columns [(position + j) mod cols], [j] in
    [[0, waveWidth)]. *)
Lemma NORMAL_forward_lit random position i c :
  0 <= position < cols -> 0 <= i < rows ->
  c ∈ lit_in_row (generate NORMAL 1 random position) i
  <-> exists j, 0 <= j < waveWidth /\ c = (position + j) mod cols.
Proof.
  intros Hp Hi. rewrite NORMAL_lit by done. simpl. unfold cols, waveWidth in *.
  split.
  - intros [Hc (j & Hj & ->)]. exists j. split; [done|].
    apply Z.rem_mod_nonneg; lia.
  - intros (j & Hj & ->). split; [apply Z.mod_pos_bound; lia|].
    exists j. split; [done|]. symmetry. apply Z.rem_mod_nonneg; lia.
Qed.

(** NORMAL, any other direction: only the columns [(cols - 1) - (position +
    j)] that are not negative are lit.  Once [position + j] passes
    [cols - 1] the remainder is negative, the write lands on a property
    that is no column, and nothing wraps around to the right edge. *)
Lemma NORMAL_backward_lit direction random position i c :
  direction <> 1 -> 0 <= position < cols -> 0 <= i < rows ->
  c ∈ lit_in_row (generate NORMAL direction random position) i
  <-> exists j, 0 <= j < waveWidth /\ position + j <= cols - 1
                /\ c = (cols - 1) - (position + j).
Proof.
  intros Hd Hp Hi. rewrite NORMAL_lit by done.
  destruct (Z.eqb_spec direction 1) as [|_]; [done|].
  unfold cols, waveWidth in *. split.
  - intros [Hc (j & Hj & Hcj)]. exists j.
    revert Hcj. Z.to_euclidean_division_equations. lia.
  - intros (j & Hj & Hle & ->). split; [lia|]. exists j. split; [done|].
    Z.to_euclidean_division_equations. lia.
Qed.

(** SPLIT: the first band wraps around, the mirrored band is cut off at
    column 0. *)
Lemma SPLIT_lit_columns direction random position i c :
  0 <= position < cols -> 0 <= i < rows ->
  c ∈ lit_in_row (generate SPLIT direction random position) i
  <-> exists j, 0 <= j < waveWidth /\
        (c = (position + j) mod cols
         \/ (position + j <= cols - 1 /\ c = (cols - 1) - (position + j))).
Proof.
  intros Hp Hi. rewrite SPLIT_lit by done. unfold cols, waveWidth in *. split.
  - intros [Hc (j & Hj & Hcj)]. exists j. split; [done|].
    revert Hcj. Z.to_euclidean_division_equations. lia.
  - intros (j & Hj & Hcj). split.
    + revert Hcj. Z.to_euclidean_division_equations. lia.
    + exists j. split; [done|].
      revert Hcj. Z.to_euclidean_division_equations. lia.
Qed.

(** SPLIT is symmetric while the first band has wrapped by at most three
    columns, that is up to position [cols - 3]: checked row by row first. *)
Lemma split_rows_symmetric_to_17 :
  forallb split_row_symmetric (seqZ 0 (cols - 2)) = true.
Proof. vm_compute. reflexivity. Qed.

Lemma lit_in_row_SPLIT direction random position i c :
  0 <= i < rows -> 0 <= c < cols ->
  c ∈ lit_in_row (generate SPLIT direction random position) i
  <-> JsArray.truthy (split_row position) c = true.
Proof.
  intros Hi Hc. unfold lit_in_row.
  rewrite grid_row_generate_SPLIT by done. fold (split_row position).
  rewrite elem_of_lit_columns. unfold split_row at 1.
  rewrite length_write_all.
  - simpl. intuition.
  - apply targets_below_cols. intros j. unfold split_targets.
    repeat constructor; apply rem_below_cols.
Qed.

Lemma SPLIT_symmetric_to_17 direction random position i :
  0 <= position <= cols - 3 -> 0 <= i < rows ->
  Spec.reflection_invariant (lit_in_row (generate SPLIT direction random position) i).
Proof.
  intros Hp Hi c Hc.
  rewrite !lit_in_row_SPLIT by (unfold cols in *; lia).
  pose proof split_rows_symmetric_to_17 as H.
  rewrite forallb_forall in H.
  specialize (H position). unfold split_row_symmetric in H.
  rewrite forallb_forall in H.
  assert (Hsym : eqb (JsArray.truthy (split_row position) c)
                     (JsArray.truthy (split_row position) (cols - 1 - c)) = true).
  { apply H; apply list_elem_of_In, elem_of_seqZ; unfold cols in *; lia. }
  apply eqb_prop in Hsym. by rewrite Hsym.
Qed.

(** C3 (the code departs from the claim).  At sweep position 19 the SPLIT
    generator lights columns 0-4 and 19 of every row: column 1 is lit and
    its mirror image, column 18, is not, so the lit set is not invariant
    under the reflection [c -> cols-1-c].  The mirrored band
    [(cols-1-(position+j)) % cols] is negative for [j >= 1] there and those
    writes light no column.  The same happens at position 18. *)
Theorem SPLIT_not_symmetric_near_wrap :
  forall direction random,
    lit_in_row (generate SPLIT direction random 19) 0 = [0; 1; 2; 3; 4; 19]
    /\ lit_in_row (generate SPLIT direction random 18) 0 = [0; 1; 2; 3; 18; 19]
    /\ ~ Spec.reflection_invariant (lit_in_row (generate SPLIT direction random 19) 0)
    /\ ~ Spec.reflection_invariant (lit_in_row (generate SPLIT direction random 18) 0).
Proof.
  intros direction random.
  assert (H19 : lit_in_row (generate SPLIT direction random 19) 0 = [0; 1; 2; 3; 4; 19])
    by (vm_compute; reflexivity).
  assert (H18 : lit_in_row (generate SPLIT direction random 18) 0 = [0; 1; 2; 3; 18; 19])
    by (vm_compute; reflexivity).
  rewrite H19, H18. repeat split.
  - intros H. specialize (H 1). unfold cols in H.
    assert (Hin : 1 ∈ [0; 1; 2; 3; 4; 19]) by (rewrite !elem_of_cons; tauto).
    apply H in Hin; [|lia]. rewrite !elem_of_cons, elem_of_nil in Hin. simpl in Hin. lia.
  - intros H. specialize (H 2). unfold cols in H.
    assert (Hin : 2 ∈ [0; 1; 2; 3; 18; 19]) by (rewrite !elem_of_cons; tauto).
    apply H in Hin; [|lia]. rewrite !elem_of_cons, elem_of_nil in Hin. simpl in Hin. lia.
Qed.

(** C4 (the code departs from the claim).  With direction [-1] at sweep
    position 19 the specification's mirrored columns are 0, 19, 18, 17, 16
    and 15; the NORMAL generator lights column 0 only.  The five writes
    whose index [(cols-1)-(position+j)] is negative go to the properties
    [-1 .. -5] of the row (the first one is read back here) and light
    nothing.  With direction [+1] at the same position the lit columns are
    the specified ones. *)
Theorem NORMAL_backward_loses_wrapped_columns :
  forall random,
    Spec.NORMAL_columns (-1) 19 = [0; 19; 18; 17; 16; 15]
    /\ lit_in_row (generate NORMAL (-1) random 19) 0 = [0]
    /\ grid_row (generate NORMAL (-1) random 19) 0 ≫= (fun a => JsArray.get a (-1)) = Some true
    /\ Spec.NORMAL_columns 1 19 = [19; 0; 1; 2; 3; 4]
    /\ lit_in_row (generate NORMAL 1 random 19) 0 = [0; 1; 2; 3; 4; 19].
Proof.
  intros random. repeat split; vm_compute; reflexivity.
Qed.

(** * Properties of the click handler and of the timers *)

Lemma resolveClick_playing s row col t :
  isPlaying s = true -> gameOver s = false -> targetCell s = Some t ->
  resolveClick s row col
  = if (row =? TargetCell.row t) && (col =? TargetCell.col t) then
      match grid_row (grid s) row with
      | None => Throws
      | Some a => if JsArray.truthy a col then Hit else Miss
      end
    else Miss.
Proof. intros Hp Ho Ht. unfold resolveClick. by rewrite Hp, Ho, Ht. Qed.

Lemma resolveClick_hit s row col :
  isPlaying s = true -> gameOver s = false ->
  targetCell s = Some (TargetCell.mk row col) ->
  lit (grid s) row col = true ->
  resolveClick s row col = Hit.
Proof.
  intros Hp Ho Ht Hlit. rewrite (resolveClick_playing _ _ _ _ Hp Ho Ht). simpl.
  rewrite !Z.eqb_refl. simpl. unfold lit in Hlit.
  destruct (grid_row (grid s) row); [by rewrite Hlit | done].
Qed.

(** What a hit does to the counters, whatever else it sets. *)
Lemma hit_counters d s :
  let points := hitPoints (combo s) (level s) (difficulty s) in
  score (hit d s) = (score s + points)%Q
  /\ combo (hit d s) = combo s + 1
  /\ level (hit d s)
     = (if Qle_bool (inject_Z (level s * 1000)) (score s + points)
        then level s + 1 else level s)
  /\ lives (hit d s) = lives s
  /\ gameOver (hit d s) = gameOver s
  /\ highScore (hit d s) = highScore s.
Proof. callback. branches; done. Qed.

(** C1.  A click on the active target while its cell is lit awards
    [100 * min(combo+1, 5) * level * difficulty] points, computed from the
    combo, level and difficulty before the hit: the score grows by exactly
    that amount and the combo by exactly 1.  With combo 2, level 3 and
    difficulty 1.5 the points are 1350. *)
Theorem hit_awards_points (s : State) (row col : Z) (d : Draws) :
  isPlaying s = true -> gameOver s = false ->
  targetCell s = Some (TargetCell.mk row col) ->
  lit (grid s) row col = true ->
  let points :=
    (100 * inject_Z (Z.min (combo s + 1) 5) * inject_Z (level s) * difficulty s)%Q in
  let s' := handleCellClick row col d s in
  score s' = (score s + points)%Q
  /\ combo s' = combo s + 1
  /\ (combo s = 2 -> level s = 3 -> (difficulty s == 3 # 2)%Q -> (points == 1350)%Q).
Proof.
  intros Hp Ho Ht Hlit points s'. subst s'. unfold handleCellClick.
  rewrite resolveClick_hit by done.
  destruct (hit_counters d s) as (Hscore & Hcombo & _).
  repeat split; [exact Hscore | exact Hcombo |].
  intros Hc Hl Hd. subst points. rewrite Hc, Hl, Hd. reflexivity.
Qed.

Lemma hit_awards_points_witness :
  score (handleCellClick 4 5 (mkDraws 0 0 0) s_combo2)
  = (2900 + 100 * inject_Z (Z.min (2 + 1) 5) * inject_Z 3 * (3 # 2))%Q
  /\ combo (handleCellClick 4 5 (mkDraws 0 0 0) s_combo2) = 3
  /\ (100 * inject_Z (Z.min (2 + 1) 5) * inject_Z 3 * (3 # 2) == 1350)%Q.
Proof.
  pose proof (hit_awards_points s_combo2 4 5 (mkDraws 0 0 0)
                eq_refl eq_refl eq_refl eq_refl) as (Hs & Hc & Hp).
  split; [exact Hs | split; [exact Hc |]].
  apply Hp; reflexivity.
Defined.

(** C5.  A hit raises the level by at most 1.  The score after the hit is
    compared once with [level * 1000]: at or above it the level grows by
    exactly 1, however far above, and below it the level stays. *)
Theorem hit_levels_up_once (s : State) (row col : Z) (d : Draws) :
  isPlaying s = true -> gameOver s = false ->
  targetCell s = Some (TargetCell.mk row col) ->
  lit (grid s) row col = true ->
  let points :=
    (100 * inject_Z (Z.min (combo s + 1) 5) * inject_Z (level s) * difficulty s)%Q in
  let s' := handleCellClick row col d s in
  ((inject_Z (level s * 1000) <= score s + points)%Q -> level s' = level s + 1)
  /\ ((score s + points < inject_Z (level s * 1000))%Q -> level s' = level s)
  /\ level s <= level s' <= level s + 1.
Proof.
  intros Hp Ho Ht Hlit points s'. subst s'. unfold handleCellClick.
  rewrite resolveClick_hit by done.
  destruct (hit_counters d s) as (_ & _ & Hlevel & _).
  fold points in Hlevel. unfold hitPoints in Hlevel. fold points in Hlevel.
  rewrite Hlevel.
  destruct (Qle_bool (inject_Z (level s * 1000)) (score s + points)) eqn:E.
  - repeat split; try lia. intros Hlt. apply Qle_bool_iff in E.
    exfalso. exact (Qlt_not_le _ _ Hlt E).
  - repeat split; try lia. intros Hle. apply Qle_bool_iff in Hle. congruence.
Qed.

(** The hit below is worth 2250 points and takes the score from 2900 to
    5150, past the thresholds of levels 3, 4 and 5; the level goes from 3
    to 4. *)
Lemma hit_levels_up_once_witness :
  (inject_Z (5 * 1000)
   <= score s_overshoot
      + 100 * inject_Z (Z.min (combo s_overshoot + 1) 5)
        * inject_Z (level s_overshoot) * difficulty s_overshoot)%Q
  /\ level (handleCellClick 4 5 (mkDraws 0 0 0) s_overshoot) = 3 + 1.
Proof.
  split; [by vm_compute|].
  apply (hit_levels_up_once s_overshoot 4 5 (mkDraws 0 0 0)
           eq_refl eq_refl eq_refl eq_refl).
  by vm_compute.
Defined.

(** C8.  [initializeGrid], the handler of "New Game" and "Play Again",
    leaves the grid all unlit and sets score 0, level 1, combo 0, lives 3,
    gameOver false, speed 100, pattern NORMAL, difficulty 1 and no shield,
    from any state; the high score is kept.  So does the whole reset step,
    which may also spawn a target. *)
Theorem reset_restores (s : State) (d : Draws) :
  let fresh (s' : State) :=
    grid s' = createEmptyGrid
    /\ (forall row col, lit (grid s') row col = false)
    /\ score s' = 0%Q /\ level s' = 1 /\ combo s' = 0 /\ lives s' = 3
    /\ gameOver s' = false /\ speed s' = 100%Q /\ wavePattern s' = NORMAL
    /\ difficulty s' = 1%Q /\ powerUpActive s' = false
    /\ highScore s' = highScore s in
  fresh (initializeGrid s) /\ fresh (step s (NewGame d)).
Proof.
  assert (Hunlit : forall row col, lit createEmptyGrid row col = false).
  { intros row col. unfold lit, grid_row, createEmptyGrid.
    destruct (row <? 0); [done|].
    destruct (replicate _ _ !! _) as [a|] eqn:E; [|done].
    apply lookup_replicate in E as [-> _]. apply truthy_fill. }
  split.
  - callback. repeat split; auto.
  - scheduler. callback. branches; repeat split; auto.
Qed.

(** C9.  A miss, by a click or by target expiry, leaves score, level,
    pattern, speed and difficulty as they were, and with them the grid,
    colour, play flag, direction and shield; only combo, lives, the target
    and the game-over flag may change.  The high score changes only when
    the miss ends the game, and then to [max(highScore, score)]. *)
Theorem miss_changes_only_combo_lives_target (s : State) (ev : Event) :
  is_miss s ev ->
  let s' := step s ev in
  miss_frame s s'
  /\ (highScore s' = highScore s
      \/ (gameOver s = false /\ gameOver s' = true
          /\ highScore s' = Qmax (highScore s) (score s))).
Proof.
  destruct ev as [| |d| | |row col d| |]; scheduler; try done.
  - (* target expiry *)
    intros _. unfold miss_frame, timersRunning. callback.
    destruct (isPlaying s) eqn:Hp, (gameOver s) eqn:Ho; fields;
      branches; rewrite ?Hp; repeat split; auto.
  - (* click *)
    intros Hmiss. unfold handleCellClick. rewrite Hmiss.
    assert (Ho : gameOver s = false).
    { unfold resolveClick in Hmiss.
      destruct (isPlaying s), (gameOver s); cbn [negb orb] in Hmiss; done. }
    unfold miss_frame. callback. fields. branches; repeat split; auto.
Qed.

Lemma miss_changes_only_combo_lives_target_witness :
  is_miss s_combo2 s_wrong_cell
  /\ miss_frame s_combo2 (step s_combo2 s_wrong_cell)
  /\ combo (step s_combo2 s_wrong_cell) = 0
  /\ lives (step s_combo2 s_wrong_cell) = 2.
Proof.
  split; [reflexivity|].
  split; [|split; reflexivity].
  apply (miss_changes_only_combo_lives_target s_combo2 s_wrong_cell).
  reflexivity.
Defined.

(** ** What holds in every reachable state *)

Lemma floor_draw_bounds r n :
  unit_draw r -> 0 < n -> 0 <= Qfloor (r * inject_Z n) < n.
Proof.
  intros [H0 H1] Hn.
  assert (Hn' : (inject_Z 0 < inject_Z n)%Q) by (rewrite <- Zlt_Qlt; exact Hn).
  split.
  - rewrite <- (Qfloor_Z 0). apply Qfloor_resp_le.
    apply Qmult_le_0_compat; [done | by apply Qlt_le_weak].
  - rewrite Zlt_Qlt. eapply Qle_lt_trans; [apply Qfloor_le|].
    rewrite <- (Qmult_1_l (inject_Z n)) at 2.
    by apply Qmult_lt_compat_r.
Qed.

Lemma length_generate wp dir random position :
  List.length (generate wp dir random position) = Z.to_nat rows.
Proof.
  unfold generate, updateWavePattern.
  destruct wp; rewrite length_for_i; apply length_replicate.
Qed.

Lemma new_target_in_bounds d t :
  valid_draws d ->
  Some (TargetCell.mk (Qfloor (row_draw d * inject_Z rows))
                      (Qfloor (col_draw d * inject_Z cols))) = Some t ->
  0 <= TargetCell.row t < rows /\ 0 <= TargetCell.col t < cols.
Proof.
  intros (Hr & Hc & _) [= <-]. simpl.
  split; apply floor_draw_bounds; done.
Qed.

Lemma well_formed_mounted d : valid_draws d -> well_formed (mounted d).
Proof.
  intros Hd. unfold well_formed, mounted. callback.
  split; [reflexivity|].
  split; [intros t Ht; by eapply new_target_in_bounds|].
  split; [lia|]. split; [left; lia|]. intros _. by eexists.
Qed.

Lemma new_target_bounds d :
  valid_draws d ->
  0 <= Qfloor (row_draw d * inject_Z rows) < rows
  /\ 0 <= Qfloor (col_draw d * inject_Z cols) < cols.
Proof. intros (Hr & Hc & _). split; by apply floor_draw_bounds. Qed.

Lemma well_formed_step s ev :
  well_formed s -> valid_event ev -> well_formed (step s ev).
Proof.
  intros (Hgrid & Htarget & Hcombo & Hlives & Hactive) Hev.
  unfold well_formed, timersRunning in *.
  assert (Hold : forall t0, targetCell s = Some t0 ->
                   0 <= TargetCell.row t0 < rows /\ 0 <= TargetCell.col t0 < cols)
    by exact Htarget.
  destruct (targetCell s) as [t|] eqn:Ht;
    destruct Hlives as [[Ho Hl]|[Ho Hl]];
    destruct (isPlaying s) eqn:Hp;
    destruct ev as [position random| |d|r| |row col d|d|d];
    scheduler; callback; unfold resolveClick;
    repeat first
      [ rewrite Hp | rewrite Ho | rewrite Ht | progress fields
      | match goal with
        | |- context [if ?b then _ else _] => destruct b eqn:?
        | |- context [match ?o with Some _ => _ | None => _ end] =>
            destruct o eqn:?
        end ];
    (split; [first [ exact Hgrid | apply length_generate | reflexivity ]|]);
    (split;
     [ intros ? ?; simplify_eq; cbn [TargetCell.row TargetCell.col];
       first [ exact (new_target_bounds _ Hev) | eauto ]|]);
    (split; [lia|]);
    (split; [first [ left; split; [done | lia] | right; split; [done | lia] ]|]);
    try done; intros _;
    first [ by eexists
          | exfalso;
            assert (Hs : is_Some (@None TargetCell.t))
              by (apply Hactive; rewrite ?Hp, ?Ho; done);
            by destruct Hs ].
Qed.

Lemma reachable_well_formed s : reachable s -> well_formed s.
Proof.
  induction 1 as [d Hd | s ev _ IH Hev].
  - by apply well_formed_mounted.
  - by apply well_formed_step.
Qed.

Lemma grid_row_is_Some (g : Grid) row :
  List.length g = Z.to_nat rows -> 0 <= row < rows -> is_Some (grid_row g row).
Proof.
  intros Hlen Hrow. unfold grid_row.
  destruct (Z.ltb_spec row 0); [lia|].
  apply lookup_lt_is_Some. rewrite Hlen. lia.
Qed.

(** C7.  In every reachable state: a click while the game is paused or
    over, or while there is no target, is ignored and changes nothing.
    Otherwise the click is a hit exactly when its coordinates are those of
    the target and that cell is lit, and a miss in every other case, a
    matching click on an unlit cell included; a miss sets the combo to 0
    and takes a life unless the shield is up. *)
Theorem click_resolution (s : State) (row col : Z) (d : Draws) :
  reachable s ->
  let s' := handleCellClick row col d s in
  (isPlaying s = false \/ gameOver s = true \/ targetCell s = None ->
   resolveClick s row col = Ignored /\ s' = s)
  /\ (forall t,
        isPlaying s = true -> gameOver s = false -> targetCell s = Some t ->
        (resolveClick s row col = Hit
         <-> row = TargetCell.row t /\ col = TargetCell.col t
             /\ lit (grid s) row col = true)
        /\ (resolveClick s row col = Hit \/ resolveClick s row col = Miss)
        /\ (row = TargetCell.row t -> col = TargetCell.col t ->
            lit (grid s) row col = false -> resolveClick s row col = Miss)
        /\ (resolveClick s row col = Hit ->
            s' = hit d s /\ combo s' = combo s + 1)
        /\ (resolveClick s row col = Miss ->
            s' = miss s /\ combo s' = 0
            /\ lives s' = if powerUpActive s then lives s else lives s - 1)).
Proof.
  intros Hreach s'. subst s'.
  apply reachable_well_formed in Hreach as (Hgrid & Htarget & _).
  split.
  - intros Hidle. assert (Hres : resolveClick s row col = Ignored).
    { unfold resolveClick. destruct Hidle as [Hi | [Hi | Hi]]; rewrite Hi.
      - done.
      - by rewrite orb_true_r.
      - by destruct (_ || _). }
    unfold handleCellClick. by rewrite Hres.
  - intros t Hp Ho Ht.
    destruct (Htarget t Ht) as [Hrow _].
    unfold handleCellClick, lit.
    rewrite (resolveClick_playing _ _ _ _ Hp Ho Ht).
    destruct (Z.eqb_spec row (TargetCell.row t)) as [->|Hr]; simpl.
    + destruct (grid_row_is_Some _ _ Hgrid Hrow) as [a ->].
      destruct (Z.eqb_spec col (TargetCell.col t)) as [->|Hc]; simpl.
      * destruct (JsArray.truthy a (TargetCell.col t)) eqn:Hlit.
        -- repeat split; auto; try done.
           apply (hit_counters d s).
        -- repeat split; try done; auto; try (by intros (_ & _ & ?));
             callback; branches; done.
      * repeat split; try done; auto; try (by intros (_ & ? & _));
          callback; branches; done.
    + repeat split; try done; auto; try (by intros (? & _ & _));
        callback; branches; done.
Qed.

Lemma valid_draws1 : valid_draws draws1.
Proof. repeat split; by vm_compute. Defined.

Lemma valid_WaveTick0 : valid_event (WaveTick 0 no_random).
Proof. repeat split; by vm_compute. Defined.

Lemma reachable_lit_state : reachable lit_state.
Proof.
  apply reach_step; [apply reach_mounted, valid_draws1 | apply valid_WaveTick0].
Defined.

Lemma click_resolution_witness :
  reachable lit_state
  /\ (resolveClick lit_state 0 1 = Hit
      <-> 0 = 0 /\ 1 = 1 /\ lit (grid lit_state) 0 1 = true)
  /\ resolveClick lit_state 0 1 = Hit
  /\ resolveClick lit_state 0 7 = Miss.
Proof.
  split; [exact reachable_lit_state|].
  destruct (click_resolution lit_state 0 1 draws1 reachable_lit_state) as [_ H].
  destruct (H (TargetCell.mk 0 1) eq_refl eq_refl eq_refl) as (Hiff & _).
  split; [exact Hiff|]. split; reflexivity.
Defined.

(** ** Game over *)

Lemma game_over_step s ev :
  gameOver s = true -> is_reset ev = false -> keeps_result s (step s ev).
Proof.
  intros Ho Hev. unfold keeps_result.
  destruct ev as [position random| |d|r| |row col d|d|d];
    scheduler; try done; callback; unfold resolveClick;
    repeat first [ rewrite Ho | rewrite andb_false_r | rewrite orb_true_r
                 | progress fields ];
    done.
Qed.

Lemma game_over_run s evs :
  gameOver s = true -> no_reset evs = true -> keeps_result s (run s evs).
Proof.
  revert s. induction evs as [|ev evs IH]; intros s Ho Hevs.
  - by unfold keeps_result.
  - scheduler. apply andb_prop in Hevs as [Hev Hevs].
    apply negb_true_iff in Hev.
    destruct (game_over_step s ev Ho Hev) as (Ho1 & Hs1 & Hl1 & Hv1 & Hh1).
    destruct (IH (step s ev) Ho1 Hevs) as (Ho2 & Hs2 & Hl2 & Hv2 & Hh2).
    unfold keeps_result, run in *. by rewrite Hs2, Hl2, Hv2, Hh2.
Qed.

(** The step that takes the last life ends the game. *)
Lemma last_life_step s ev :
  0 < lives s -> lives (step s ev) <= 0 ->
  gameOver s = false /\ gameOver (step s ev) = true
  /\ highScore (step s ev) = Qmax (highScore s) (score s)
  /\ score (step s ev) = score s.
Proof.
  intros Hpos.
  destruct ev as [position random| |d|r| |row col d|d|d];
    scheduler; callback; unfold resolveClick;
    destruct (isPlaying s), (gameOver s); fields; branches;
    intros Hzero; try lia; by repeat split.
Qed.

(** C6.  The step that brings [lives] from a positive value to 0 turns
    [gameOver] from false to true and sets [highScore] to
    [max(highScore, score)], the score being the final one.  After it, as
    long as the game is not reset, no click and no timer changes score,
    lives or level; [gameOver] stays true and [highScore] stays as set. *)
Theorem game_over_is_terminal (s : State) (ev : Event) (evs : list Event) :
  0 < lives s -> lives (step s ev) <= 0 -> no_reset evs = true ->
  let s1 := step s ev in
  let s2 := run s1 evs in
  gameOver s = false /\ gameOver s1 = true
  /\ highScore s1 = Qmax (highScore s) (score s) /\ score s1 = score s
  /\ gameOver s2 = true /\ score s2 = score s1 /\ lives s2 = lives s1
  /\ level s2 = level s1 /\ highScore s2 = highScore s1.
Proof.
  intros Hpos Hzero Hevs s1 s2.
  destruct (last_life_step s ev Hpos Hzero) as (Ho & Ho1 & Hh1 & Hs1).
  destruct (game_over_run s1 evs Ho1 Hevs) as (Ho2 & Hs2 & Hl2 & Hv2 & Hh2).
  by repeat split.
Qed.

Lemma game_over_is_terminal_witness :
  0 < lives s_last_life
  /\ lives (step s_last_life (TargetCheck draws1)) <= 0
  /\ no_reset after_game_over = true
  /\ gameOver (step s_last_life (TargetCheck draws1)) = true
  /\ lives (run (step s_last_life (TargetCheck draws1)) after_game_over)
     = lives (step s_last_life (TargetCheck draws1)).
Proof.
  assert (H1 : 0 < lives s_last_life) by (by vm_compute).
  assert (H2 : lives (step s_last_life (TargetCheck draws1)) <= 0) by (by vm_compute).
  assert (H3 : no_reset after_game_over = true) by reflexivity.
  destruct (game_over_is_terminal s_last_life (TargetCheck draws1)
              after_game_over H1 H2 H3)
    as (_ & Ho & _ & _ & _ & _ & Hl & _).
  exact (conj H1 (conj H2 (conj H3 (conj Ho Hl)))).
Defined.

(** ** Streaks of hits *)

Lemma combo_step s ev :
  match ev with
  | Click row col _ => resolveClick s row col = Hit
  | NewGame _ => False
  | _ => True
  end ->
  combo (step s ev) = combo s + match ev with Click _ _ _ => 1 | _ => 0 end.
Proof.
  destruct ev as [position random| |d|r| |row col d|d|d]; scheduler;
    intros H; try done.
  1-4: callback; branches; lia.
  - fields. lia.
  - unfold handleCellClick. rewrite H. apply (hit_counters d s).
  - callback; branches; lia.
Qed.

Lemma combo_hit_streak s evs :
  hit_streak s evs -> combo (run s evs) = combo s + clicks evs.
Proof.
  revert s. induction evs as [|ev evs IH]; intros s; scheduler.
  - intros _. lia.
  - intros [Hev Hevs]. unfold run in IH. rewrite IH by done.
    rewrite (combo_step s ev Hev). destruct ev; lia.
Qed.

(** C10.  The stored combo is never clamped: over a run in which every
    click is a hit, started at combo 0, it ends at the number of hits,
    whatever that number is.  Only the factor [min(combo+1, 5)] of the
    points is capped: after four or more hits in a row the next hit scores
    [100 * 5 * level * difficulty]. *)
Theorem combo_is_not_clamped (s : State) (evs : list Event) :
  combo s = 0 -> hit_streak s evs ->
  combo (run s evs) = clicks evs
  /\ (forall lvl df,
        hitPoints (combo (run s evs)) lvl df
        = (100 * inject_Z (Z.min (clicks evs + 1) 5) * inject_Z lvl * df)%Q)
  /\ (4 <= clicks evs ->
      forall lvl df,
        hitPoints (combo (run s evs)) lvl df
        = (100 * inject_Z 5 * inject_Z lvl * df)%Q).
Proof.
  intros H0 Hstreak.
  assert (Hcombo : combo (run s evs) = clicks evs).
  { rewrite combo_hit_streak by done. lia. }
  rewrite Hcombo. repeat split.
  intros Hn lvl df. unfold hitPoints. by rewrite Z.min_r by lia.
Qed.

Lemma combo_is_not_clamped_witness :
  combo (mounted draws1) = 0
  /\ hit_streak (mounted draws1) (rounds 7)
  /\ combo (run (mounted draws1) (rounds 7)) = 7
  /\ hitPoints (combo (run (mounted draws1) (rounds 7))) 2 1
     = (100 * inject_Z 5 * inject_Z 2 * 1)%Q.
Proof.
  assert (H0 : combo (mounted draws1) = 0) by reflexivity.
  assert (Hs : hit_streak (mounted draws1) (rounds 7))
    by (vm_compute; repeat split).
  assert (H4 : 4 <= clicks (rounds 7)) by (by vm_compute).
  destruct (combo_is_not_clamped (mounted draws1) (rounds 7) H0 Hs)
    as (Hc & _ & H5).
  exact (conj H0 (conj Hs (conj Hc (H5 H4 2 1%Q)))).
Defined.

(** Streaks of every length occur: from the mounted state, [n] rounds of a
    wave tick and a click on the target are [n] hits. *)
Lemma wave_tick_ready s :
  round_ready s ->
  round_ready (step s (WaveTick 0 no_random))
  /\ grid (step s (WaveTick 0 no_random)) = generate NORMAL 1 no_random 1.
Proof.
  intros (Hp & Ho & Ht & Hw & Hd). unfold round_ready. scheduler. callback.
  assert (E : (Z.rem (0 + 1) cols =? 0) = false) by reflexivity.
  rewrite Hp, Ho. fields. rewrite E. fields. rewrite ?Hp, ?Ho, ?Hw, ?Hd.
  by repeat split.
Qed.

Lemma hit_ready s d :
  round_ready s -> d = draws1 -> round_ready (hit d s).
Proof.
  intros (Hp & Ho & Ht & Hw & Hd) ->. unfold round_ready. callback.
  assert (E : randomPattern draws1 = NORMAL) by reflexivity.
  branches; rewrite ?E; by repeat split.
Qed.

Lemma rounds_hit_streak n s :
  round_ready s -> hit_streak s (rounds n) /\ clicks (rounds n) = Z.of_nat n.
Proof.
  revert s. induction n as [|n IH]; intros s Hs.
  - by split.
  - destruct (wave_tick_ready s Hs) as [Hs1 Hgrid].
    assert (Hhit : resolveClick (step s (WaveTick 0 no_random)) 0 1 = Hit).
    { destruct Hs1 as (Hp & Ho & Ht & _).
      apply resolveClick_hit; try done. by rewrite Hgrid. }
    assert (Hs2 : round_ready (step (step s (WaveTick 0 no_random))
                                    (Click 0 1 draws1))).
    { change (round_ready (handleCellClick 0 1 draws1
                             (step s (WaveTick 0 no_random)))).
      unfold handleCellClick. rewrite Hhit. by apply hit_ready. }
    destruct (IH _ Hs2) as [Hstreak Hclicks].
    cbn [rounds hit_streak clicks]. rewrite Hclicks.
    repeat split; try done. lia.
Qed.

Lemma streaks_of_every_length n :
  exists evs,
    hit_streak (mounted draws1) evs /\ clicks evs = Z.of_nat n
    /\ combo (run (mounted draws1) evs) = Z.of_nat n.
Proof.
  assert (Hready : round_ready (mounted draws1)) by (by repeat split).
  destruct (rounds_hit_streak n _ Hready) as [Hstreak Hclicks].
  exists (rounds n). repeat split; try done.
  rewrite combo_hit_streak by done. rewrite Hclicks.
  change (combo (mounted draws1)) with 0. lia.
Qed.

(** ** Target expiry and the combo *)

(** The target-expiry callback never writes the combo. *)
Lemma targetCheck_keeps_combo s d : combo (step s (TargetCheck d)) = combo s.
Proof. scheduler. callback. by branches. Qed.

(** A click that misses resets it. *)
Lemma miss_resets_combo s row col d :
  resolveClick s row col = Miss -> combo (step s (Click row col d)) = 0.
Proof.
  intros H. scheduler. unfold handleCellClick. rewrite H. callback. by branches.
Qed.

(** The run that reaches level 6 is one the component can make. *)
Lemma reachable_run s evs :
  reachable s -> Forall valid_event evs -> reachable (run s evs).
Proof.
  intros Hs Hevs. revert s Hs.
  induction Hevs as [|ev evs Hev Hevs IH]; intros s Hs; [done|].
  apply IH. by apply reach_step.
Qed.

Lemma valid_rounds n : Forall valid_event (rounds n).
Proof.
  induction n as [|n IH]; [done|].
  cbn [rounds]. apply Forall_cons_2; [apply valid_WaveTick0|].
  apply Forall_cons_2; [apply valid_draws1 | exact IH].
Qed.

Lemma valid_expiry_run : Forall valid_event expiry_run.
Proof.
  unfold expiry_run. apply Forall_app. split; [apply valid_rounds|].
  apply Forall_app. split; [|by apply Forall_singleton].
  apply Forall_fmap, Forall_forall. intros p Hp. apply elem_of_seqZ in Hp.
  split; [unfold cols; lia | by intros i'; vm_compute].
Qed.

Lemma reachable_s_level6 : reachable s_level6.
Proof.
  apply reachable_run; [apply reach_mounted, valid_draws1 | apply valid_expiry_run].
Qed.

(** C2 (the code departs from the claim).  In every state in which the
    target-expiry callback takes a life, that is whenever the game runs, a
    target is active and no shield is, it takes exactly one life and
    leaves the combo as it is: a combo that is not 0 is not reset by this
    loss of a life.  A click that misses in the same state takes the life
    in the same way and does reset the combo to 0. *)
Theorem expiry_takes_life_keeps_combo (s : State) (d : Draws) :
  timersRunning s = true -> is_Some (targetCell s) ->
  powerUpActive s = false ->
  lives (step s (TargetCheck d)) = lives s - 1
  /\ combo (step s (TargetCheck d)) = combo s
  /\ (combo s <> 0 -> combo (step s (TargetCheck d)) <> 0)
  /\ (forall row col, resolveClick s row col = Miss ->
        lives (step s (Click row col d)) = lives s - 1
        /\ combo (step s (Click row col d)) = 0).
Proof.
  intros Hrun [t Ht] Hu.
  pose proof (targetCheck_keeps_combo s d) as Hcombo.
  split; [|split; [exact Hcombo|split]].
  - scheduler. rewrite Hrun. callback. rewrite Ht, Hu. fields. by branches.
  - intros Hc. by rewrite Hcombo.
  - intros row col Hmiss. split; [|by apply miss_resets_combo].
    scheduler. unfold handleCellClick. rewrite Hmiss.
    callback. rewrite Hu. fields. by branches.
Qed.

Lemma expiry_takes_life_keeps_combo_witness :
  reachable s_level6
  /\ level s_level6 = 6 /\ combo s_level6 = 8 /\ lives s_level6 = 3
  /\ lives (step s_level6 (TargetCheck draws1)) = 3 - 1
  /\ combo (step s_level6 (TargetCheck draws1)) = 8
  /\ combo (step s_level6 (TargetCheck draws1)) <> 0
  /\ combo (step s_level6 (Click 9 9 draws1)) = 0.
Proof.
  assert (Hrun : timersRunning s_level6 = true) by (vm_compute; reflexivity).
  assert (Ht : is_Some (targetCell s_level6)) by (vm_compute; by eexists).
  assert (Hu : powerUpActive s_level6 = false) by (vm_compute; reflexivity).
  assert (Hv : level s_level6 = 6) by (vm_compute; reflexivity).
  assert (Hc : combo s_level6 = 8) by (vm_compute; reflexivity).
  assert (Hl : lives s_level6 = 3) by (vm_compute; reflexivity).
  assert (Hm : resolveClick s_level6 9 9 = Miss) by (vm_compute; reflexivity).
  destruct (expiry_takes_life_keeps_combo s_level6 draws1 Hrun Ht Hu)
    as (Hl' & Hc' & Hne & Hmiss).
  rewrite Hl in Hl'. rewrite Hc in Hc'.
  assert (Hc0 : combo s_level6 <> 0) by (rewrite Hc; discriminate).
  exact (conj reachable_s_level6
           (conj Hv (conj Hc (conj Hl (conj Hl' (conj Hc' (conj (Hne Hc0)
              (proj2 (Hmiss 9 9 Hm))))))))).
Defined.

(** * Further properties of the wave generator *)

Lemma length_set a k v :
  k < JsArray.length a -> JsArray.length (JsArray.set a k v) = JsArray.length a.
Proof. intros Hk. unfold JsArray.set; simpl. destruct (0 <=? k); lia. Qed.

Lemma length_set_checked col a :
  JsArray.length a = cols -> JsArray.length (set_checked col a) = cols.
Proof.
  intros Ha. unfold set_checked.
  destruct (Z.leb_spec 0 col), (Z.ltb_spec col cols); cbn [andb]; try done.
  rewrite length_set; [done | lia].
Qed.

Lemma length_for_j body a :
  (forall j a', JsArray.length a' = cols -> JsArray.length (body j a') = cols) ->
  JsArray.length a = cols -> JsArray.length (for_j body a) = cols.
Proof.
  intros Hbody. unfold for_j. generalize (seqZ 0 waveWidth). intros js.
  revert a. induction js as [|j js IH]; intros a Ha; simpl; [done|].
  apply IH. by apply Hbody.
Qed.

Lemma Forall_for_i (P : JsArray.t -> Prop) body (g : Grid) :
  (forall i a, P a -> P (body i a)) -> Forall P g -> Forall P (for_i body g).
Proof.
  intros Hbody. unfold for_i. generalize (seqZ 0 rows). intros l. revert g.
  induction l as [|i l IH]; intros g Hg; simpl; [done|].
  apply IH. apply Forall_alter; [done|]. intros a _ Ha. by apply Hbody.
Qed.

Lemma generate_rows_have_cols wp dir random position :
  Forall (fun a => JsArray.length a = cols) (generate wp dir random position).
Proof.
  assert (Hempty : Forall (fun a => JsArray.length a = cols) createEmptyGrid).
  { unfold createEmptyGrid. by apply Forall_replicate. }
  unfold generate, updateWavePattern.
  destruct wp; apply Forall_for_i; try done; intros i a Ha;
    apply length_for_j; try done; intros j a' Ha'.
  - destruct (dir =? 1); rewrite length_set; try done;
      rewrite Ha'; apply rem_below_cols.
  - rewrite !length_set; try done; rewrite ?length_set; rewrite ?Ha';
      try apply rem_below_cols.
  - by apply length_set_checked.
  - by apply length_set_checked.
Qed.

(** X1.  Whatever the pattern, the direction, the draws and the sweep
    position, the grid a wave tick builds keeps its shape: each of the
    [rows] rows exists and has exactly [cols] columns.  No write of
    [updateWavePattern] lands at or beyond [cols], and the writes at
    negative keys of the SPLIT and NORMAL cases add no element. *)
Theorem generate_shape wp dir random position i :
  0 <= i < rows ->
  exists a, grid_row (generate wp dir random position) i = Some a
            /\ JsArray.length a = cols.
Proof.
  intros Hi.
  destruct (grid_row_is_Some (generate wp dir random position) i) as [a Ha];
    [apply length_generate | done |].
  exists a. split; [done|].
  pose proof (generate_rows_have_cols wp dir random position) as Hall.
  rewrite Forall_lookup in Hall. unfold grid_row in Ha.
  destruct (i <? 0); [done|]. by eapply Hall.
Qed.

Lemma generate_shape_witness :
  exists a, grid_row (generate CHAOS 1 (fun _ => 3 # 4) 19) 14 = Some a
            /\ JsArray.length a = cols.
Proof. apply (generate_shape CHAOS 1 (fun _ => 3 # 4) 19 14). by vm_compute. Defined.

Lemma normal_counts_all : forallb normal_counts_ok (seqZ 0 cols) = true.
Proof. vm_compute. reflexivity. Qed.

(** X2.  The NORMAL pattern at a sweep position in [0, cols): with
    direction 1 every row has exactly [waveWidth] lit cells; with direction
    -1 it has [min(waveWidth, cols - position)] of them, the cells whose
    index [(cols-1) - (position+j)] is not negative. *)
Theorem NORMAL_lit_count random position i :
  0 <= position < cols -> 0 <= i < rows ->
  lit_count (generate NORMAL 1 random position) i = Z.to_nat waveWidth
  /\ lit_count (generate NORMAL (-1) random position) i
     = Z.to_nat (Z.min waveWidth (cols - position)).
Proof.
  intros Hp Hi. unfold lit_count, lit_in_row.
  rewrite !grid_row_generate_NORMAL by done.
  fold (normal_row 1 position). fold (normal_row (-1) position).
  pose proof normal_counts_all as H. rewrite forallb_forall in H.
  specialize (H position). unfold normal_counts_ok in H.
  rewrite andb_true_iff, !Nat.eqb_eq in H.
  apply H, list_elem_of_In, elem_of_seqZ. lia.
Qed.

Lemma NORMAL_lit_count_witness :
  lit_count (generate NORMAL 1 no_random 17) 2 = Z.to_nat waveWidth
  /\ lit_count (generate NORMAL (-1) no_random 17) 2 = 3%nat.
Proof.
  apply (NORMAL_lit_count no_random 17 2); by vm_compute.
Defined.

(** X3.  The SPLIT pattern lights in every row exactly the cells the NORMAL
    pattern lights with direction 1 together with those it lights with
    direction -1, at the same position; the direction and the draws play no
    part. *)
Theorem SPLIT_is_both_NORMAL_bands direction random position i c :
  0 <= i < rows ->
  c ∈ lit_in_row (generate SPLIT direction random position) i
  <-> c ∈ lit_in_row (generate NORMAL 1 random position) i
      \/ c ∈ lit_in_row (generate NORMAL (-1) random position) i.
Proof.
  intros Hi. rewrite SPLIT_lit, !NORMAL_lit by done.
  change (1 =? 1) with true. change (-1 =? 1) with false. cbv beta iota.
  split.
  - intros [Hc (j & Hj & [->| ->])]; [left | right]; (split; [done|]);
      by exists j.
  - intros [[Hc (j & Hj & ->)]|[Hc (j & Hj & ->)]]; (split; [done|]);
      exists j; (split; [done|]); [by left | by right].
Qed.

Lemma SPLIT_is_both_NORMAL_bands_witness :
  3 ∈ lit_in_row (generate SPLIT 1 no_random 16) 0
  <-> 3 ∈ lit_in_row (generate NORMAL 1 no_random 16) 0
      \/ 3 ∈ lit_in_row (generate NORMAL (-1) no_random 16) 0.
Proof.
  apply (SPLIT_is_both_NORMAL_bands 1 no_random 16 0 3). by vm_compute.
Defined.

(** X4.  While the band does not reach the right edge
    ([position <= cols - waveWidth]), the NORMAL pattern with direction -1
    is the mirror image of the pattern with direction 1: column [c] is lit
    in the one exactly when column [cols-1-c] is lit in the other. *)
Theorem NORMAL_backward_mirrors_forward random position i c :
  0 <= position <= cols - waveWidth -> 0 <= i < rows ->
  c ∈ lit_in_row (generate NORMAL (-1) random position) i
  <-> (cols - 1 - c) ∈ lit_in_row (generate NORMAL 1 random position) i.
Proof.
  intros Hp Hi. unfold cols, waveWidth in *.
  rewrite NORMAL_backward_lit, NORMAL_forward_lit by (unfold cols; lia).
  unfold cols, waveWidth. split.
  - intros (j & Hj & Hle & ->). exists j. split; [done|].
    rewrite Z.mod_small by lia. lia.
  - intros (j & Hj & Hcj). exists j. rewrite Z.mod_small in Hcj by lia. lia.
Qed.

Lemma NORMAL_backward_mirrors_forward_witness :
  15 ∈ lit_in_row (generate NORMAL (-1) no_random 3) 0
  <-> (cols - 1 - 15) ∈ lit_in_row (generate NORMAL 1 no_random 3) 0.
Proof.
  apply (NORMAL_backward_mirrors_forward no_random 3 0 15); by vm_compute.
Defined.

Lemma Qfloor_unique q z :
  (inject_Z z <= q)%Q -> (q < inject_Z (z + 1))%Q -> Qfloor q = z.
Proof.
  intros Hle Hlt.
  pose proof (Qfloor_le q) as H1. pose proof (Qlt_floor q) as H2.
  assert (Ha : Qfloor q < z + 1).
  { rewrite Zlt_Qlt. eapply Qle_lt_trans; [exact H1 | exact Hlt]. }
  assert (Hb : z < Qfloor q + 1).
  { rewrite Zlt_Qlt. eapply Qle_lt_trans; [exact Hle | exact H2]. }
  lia.
Qed.

(** The floor of [x % cols] for a non-negative [x]. *)
Lemma Qfloor_Qrem_cols x :
  (0 <= x)%Q -> Qfloor (Qrem x (inject_Z cols)) = Qfloor x mod cols.
Proof.
  intros Hx. unfold Qrem, Qtrunc.
  set (y := (x / inject_Z cols)%Q).
  assert (Ey : (x == y * 20)%Q) by (unfold y, cols; field).
  clearbody y.
  assert (Hy : (0 <= y)%Q) by lra.
  apply Qle_bool_iff in Hy as Hyb. rewrite Hyb.
  set (k := Qfloor y).
  pose proof (Qfloor_le y) as Hk1. pose proof (Qlt_floor y) as Hk2.
  fold k in Hk1, Hk2. clearbody k.
  rewrite inject_Z_plus in Hk2. change (inject_Z 1) with 1%Q in Hk2.
  assert (Hlo : 20 * k <= Qfloor x).
  { rewrite <- (Qfloor_Z (20 * k)). apply Qfloor_resp_le.
    rewrite inject_Z_mult. change (inject_Z 20) with 20%Q. lra. }
  pose proof (Qfloor_le x) as Hx1. pose proof (Qlt_floor x) as Hx2.
  set (fx := Qfloor x) in *. clearbody fx.
  rewrite inject_Z_plus in Hx2. change (inject_Z 1) with 1%Q in Hx2.
  assert (Hhi : fx < 20 * (k + 1)).
  { rewrite Zlt_Qlt, inject_Z_mult, inject_Z_plus.
    change (inject_Z 20) with 20%Q. change (inject_Z 1) with 1%Q. lra. }
  assert (Hfloor : Qfloor (x - inject_Z cols * inject_Z k) = fx - 20 * k).
  { apply Qfloor_unique; unfold cols, Z.sub;
      rewrite ?inject_Z_plus, ?inject_Z_opp, ?inject_Z_mult;
      change (inject_Z 20) with 20%Q; change (inject_Z 1) with 1%Q; lra. }
  rewrite Hfloor. unfold cols.
  apply (Z.mod_unique_pos fx 20 k); lia.
Qed.

(** ** Rounding to binary64 *)

Lemma round_half_even_bounds t A B :
  (inject_Z A <= t)%Q -> (t <= inject_Z B)%Q ->
  A <= round_half_even t <= B.
Proof.
  intros HA HB. unfold round_half_even.
  pose proof (Qfloor_le t) as Hf1. pose proof (Qlt_floor t) as Hf2.
  assert (HfA : A <= Qfloor t).
  { rewrite <- (Qfloor_Z A). by apply Qfloor_resp_le. }
  assert (HfB : Qfloor t <= B).
  { rewrite <- (Qfloor_Z B). by apply Qfloor_resp_le. }
  assert (Hup : (inject_Z (Qfloor t) < t)%Q -> Qfloor t + 1 <= B).
  { intros Hlt. assert (H : Qfloor t < B); [|lia].
    rewrite Zlt_Qlt. by eapply Qlt_le_trans. }
  set (f := Qfloor t) in *. clearbody f.
  destruct (Qcompare_spec (t - inject_Z f) (1 # 2)) as [E|E|E].
  - destruct (Z.even f); [lia|]. split; [lia|]. apply Hup. lra.
  - lia.
  - split; [lia|]. apply Hup. lra.
Qed.

Lemma ilog2_le a : ilog2 a <= Z.log2 (Qnum a) - Z.log2 (Z.pos (Qden a)).
Proof. unfold ilog2. destruct (Qlt_bool _ _); lia. Qed.

Lemma log2_quotient_le n d k :
  0 <= n -> 0 <= k -> n <= 2 ^ k * Z.pos d -> Z.log2 n - Z.log2 (Z.pos d) <= k.
Proof.
  intros Hn Hk Hle.
  destruct (decide (n = 0)) as [->|Hn0].
  - change (Z.log2 0) with 0. pose proof (Z.log2_nonneg (Z.pos d)). lia.
  - pose proof (Z.log2_nonneg (Z.pos d)) as Hld.
    destruct (Z.log2_spec (Z.pos d)) as [_ Hd]; [done|].
    assert (H : Z.log2 n < k + 1 + Z.log2 (Z.pos d)); [|lia].
    apply Z.log2_lt_pow2; [lia|].
    replace (k + 1 + Z.log2 (Z.pos d)) with (k + Z.succ (Z.log2 (Z.pos d))) by lia.
    rewrite Z.pow_add_r by lia.
    assert (0 < 2 ^ k) by (apply Z.pow_pos_nonneg; lia). nia.
Qed.

(** The exponent of the last place of a number of magnitude at most
    [2^42]. *)
Lemma ulp_exponent x :
  (Qabs x <= inject_Z (2 ^ 42))%Q ->
  -1074 <= Z.max (ilog2 (Qabs x) - 52) (-1074) <= -10.
Proof.
  intros Hx. split; [lia|].
  pose proof (ilog2_le (Qabs x)) as Hlog.
  assert (Hk : Z.log2 (Qnum (Qabs x)) - Z.log2 (Z.pos (Qden (Qabs x))) <= 42).
  { apply log2_quotient_le; [|lia|].
    - pose proof (Qabs_nonneg x) as H0. unfold Qle in H0. simpl in H0. lia.
    - unfold Qle in Hx. cbn [Qnum Qden inject_Z] in Hx. lia. }
  lia.
Qed.

Lemma pow2_inverse n :
  0 <= n -> (/ (2 ^ (- (8 + n))) == 256 * inject_Z (2 ^ n))%Q.
Proof.
  intros Hn. rewrite <- Qpower_opp, Z.opp_involutive.
  rewrite Qpower_plus by done.
  change (2 ^ n)%Q with (inject_Z 2 ^ n)%Q.
  rewrite <- Zpower_Qpower by lia. reflexivity.
Qed.

Lemma pow2_negative e :
  e <= -8 -> (/ (2 ^ e) == 256 * inject_Z (2 ^ (- e - 8)))%Q.
Proof.
  intros He. rewrite <- pow2_inverse by lia.
  by replace (- (8 + (- e - 8))) with e by lia.
Qed.

(** Rounding to binary64 does not cross a multiple of [1/256], as long as
    the magnitude is at most [2^42]: such a multiple is a double. *)
Lemma round64_dyadic x A B :
  - 2 ^ 50 <= A -> B <= 2 ^ 50 ->
  (inject_Z A <= x * 256)%Q -> (x * 256 <= inject_Z B)%Q ->
  (inject_Z A <= round64 x * 256 /\ round64 x * 256 <= inject_Z B)%Q.
Proof.
  intros HA HB HxA HxB.
  assert (Hx : (Qabs x <= inject_Z (2 ^ 42))%Q).
  { apply Qabs_Qle_condition.
    assert (H1 : (inject_Z (- 2 ^ 50) <= inject_Z A)%Q) by (rewrite <- Zle_Qle; lia).
    assert (H2 : (inject_Z B <= inject_Z (2 ^ 50))%Q) by (rewrite <- Zle_Qle; lia).
    change (inject_Z (- 2 ^ 50)) with (- (1125899906842624))%Q in H1.
    change (inject_Z (2 ^ 50)) with 1125899906842624%Q in H2.
    change (inject_Z (2 ^ 42)) with 4398046511104%Q.
    split; lra. }
  unfold round64.
  pose proof (ulp_exponent x Hx) as He.
  set (e := Z.max (ilog2 (Qabs x) - 52) (-1074)) in *. clearbody e.
  pose proof (pow2_negative e ltac:(lia)) as Hinv.
  assert (HN : (0 < inject_Z (2 ^ (- e - 8)))%Q).
  { change 0%Q with (inject_Z 0). rewrite <- Zlt_Qlt.
    apply Z.pow_pos_nonneg; lia. }
  assert (Hp : (0 < 2 ^ e)%Q) by (by apply Qpower_0_lt).
  set (N := inject_Z (2 ^ (- e - 8))) in *.
  assert (Ht : (x / 2 ^ e == x * 256 * N)%Q).
  { unfold Qdiv. rewrite Hinv. ring. }
  destruct (round_half_even_bounds (x / 2 ^ e) (A * 2 ^ (- e - 8))
              (B * 2 ^ (- e - 8))) as [Hm1 Hm2].
  { rewrite Ht, inject_Z_mult. fold N.
    by apply Qmult_le_compat_r; [|apply Qlt_le_weak]. }
  { rewrite Ht, inject_Z_mult. fold N.
    by apply Qmult_le_compat_r; [|apply Qlt_le_weak]. }
  rewrite Zle_Qle, inject_Z_mult in Hm1, Hm2. fold N in Hm1, Hm2.
  set (m := inject_Z (round_half_even (x / 2 ^ e))) in *. clearbody m.
  assert (Hone : (2 ^ e * (256 * N) == 1)%Q).
  { rewrite <- Hinv. field. lra. }
  set (p := (2 ^ e)%Q) in *. clearbody p. clearbody N.
  assert (Hq : (m * p * 256 * N == m)%Q).
  { transitivity (m * (p * (256 * N)))%Q; [ring|]. rewrite Hone. ring. }
  split.
  - apply (Qmult_le_r _ _ N); [done|]. by rewrite Hq.
  - apply (Qmult_le_r _ _ N); [done|]. by rewrite Hq.
Qed.

(** The rounded sum [position + j + offset + cols] stays between the
    multiples of [1/256] that enclose the exact one. *)
Lemma offset_sum_dyadic position j offset a b :
  0 <= position < 2 ^ 40 -> 0 <= j < 2 ^ 40 -> - 2 ^ 40 <= a -> b <= 2 ^ 40 ->
  (inject_Z a <= offset * 256)%Q -> (offset * 256 <= inject_Z b)%Q ->
  let x := fadd (fadd (fadd (inject_Z position) (inject_Z j)) offset)
                (inject_Z cols) in
  (inject_Z (position + j + cols) * 256 + inject_Z a <= x * 256
   /\ x * 256 <= inject_Z (position + j + cols) * 256 + inject_Z b)%Q.
Proof.
  intros Hp Hj Ha Hb Hoa Hob x. subst x. unfold fadd.
  destruct (round64_dyadic (inject_Z position + inject_Z j)
              (256 * (position + j)) (256 * (position + j))) as [H1 H1'];
    [pow_lia | pow_lia | to_Q; lra | to_Q; lra |].
  set (s1 := round64 (inject_Z position + inject_Z j)) in *. clearbody s1.
  destruct (round64_dyadic (s1 + offset)
              (256 * (position + j) + a) (256 * (position + j) + b)) as [H2 H2'];
    [pow_lia | pow_lia | | |].
  { revert H1. to_Q. lra. }
  { revert H1'. to_Q. lra. }
  set (s2 := round64 (s1 + offset)) in *. clearbody s2.
  destruct (round64_dyadic (s2 + inject_Z cols)
              (256 * (position + j + cols) + a)
              (256 * (position + j + cols) + b)) as [H3 H3'];
    [pow_lia | pow_lia | | |].
  { revert H2. to_Q. lra. }
  { revert H2'. to_Q. lra. }
  revert H3 H3'. to_Q. lra.
Qed.

(** The ranges of the arguments of [offset_col] within which the sum is
    far from the largest integer a double holds exactly. *)
Lemma offset_col_floor position j offset s a b :
  0 <= position < 2 ^ 40 -> 0 <= j < 2 ^ 40 -> - cols <= s < 2 ^ 30 ->
  256 * s <= a -> b <= 256 * s + 255 ->
  (inject_Z a <= offset * 256)%Q -> (offset * 256 <= inject_Z b)%Q ->
  offset_col position j offset = (position + j + s) mod cols.
Proof.
  intros Hp Hj Hs Ha Hb Hoa Hob.
  destruct (offset_sum_dyadic position j offset a b) as [H1 H2]; try done.
  { pow_lia. }
  { pow_lia. }
  unfold offset_col.
  set (x := fadd _ _) in *. clearbody x.
  assert (HaQ : (inject_Z s * 256 <= inject_Z a)%Q).
  { assert (H : (inject_Z (256 * s) <= inject_Z a)%Q)
      by (rewrite <- Zle_Qle; lia).
    revert H. to_Q. lra. }
  assert (HbQ : (inject_Z b <= inject_Z s * 256 + 255)%Q).
  { assert (H : (inject_Z b <= inject_Z (256 * s + 255))%Q)
      by (rewrite <- Zle_Qle; lia).
    revert H. to_Q. lra. }
  assert (Hn : (0 <= inject_Z (position + j + s + cols))%Q).
  { change 0%Q with (inject_Z 0). rewrite <- Zle_Qle. lia. }
  assert (Hlo : (inject_Z (position + j + s + cols) <= x)%Q).
  { revert H1 Hn. to_Q. lra. }
  assert (Hhi : (x < inject_Z (position + j + s + cols + 1))%Q).
  { revert H2. to_Q. lra. }
  rewrite Qfloor_Qrem_cols by lra.
  rewrite (Qfloor_unique x (position + j + s + cols)) by done.
  unfold cols. rewrite <- (Z.add_mod_idemp_r _ 20) by lia.
  rewrite Z.mod_same by lia. f_equal. lia.
Qed.

(** Without a margin the rounded sum can reach the next integer, and no
    further. *)
Lemma offset_col_near position j offset s :
  0 <= position < 2 ^ 40 -> 0 <= j < 2 ^ 40 -> - cols <= s < 2 ^ 30 ->
  (inject_Z s <= offset)%Q -> (offset <= inject_Z s + 1)%Q ->
  offset_col position j offset = (position + j + s) mod cols
  \/ offset_col position j offset = (position + j + s + 1) mod cols.
Proof.
  intros Hp Hj Hs Hoa Hob.
  destruct (offset_sum_dyadic position j offset (256 * s) (256 * s + 256))
    as [H1 H2]; try done.
  { pow_lia. }
  { pow_lia. }
  { to_Q. lra. }
  { to_Q. change (inject_Z 256) with 256%Q. lra. }
  unfold offset_col.
  set (x := fadd _ _) in *. clearbody x.
  assert (Hn : (0 <= inject_Z (position + j + s + cols))%Q).
  { change 0%Q with (inject_Z 0). rewrite <- Zle_Qle. lia. }
  assert (Hlo : (inject_Z (position + j + s + cols) <= x)%Q).
  { revert H1 Hn. to_Q. lra. }
  assert (Hhi : (x <= inject_Z (position + j + s + cols) + 1)%Q).
  { revert H2. to_Q. change (inject_Z 256) with 256%Q. lra. }
  rewrite Qfloor_Qrem_cols by lra.
  destruct (Qlt_le_dec x (inject_Z (position + j + s + cols + 1))) as [Hlt|Hge].
  - left. rewrite (Qfloor_unique x (position + j + s + cols)) by done.
    unfold cols. rewrite <- (Z.add_mod_idemp_r _ 20) by lia.
    rewrite Z.mod_same by lia. f_equal. lia.
  - right. rewrite (Qfloor_unique x (position + j + s + cols + 1)).
    + replace (position + j + s + cols + 1) with (position + j + s + 1 + cols)
        by lia.
      unfold cols. rewrite <- (Z.add_mod_idemp_r _ 20) by lia.
      rewrite Z.mod_same by lia. f_equal. lia.
    + done.
    + revert Hhi. to_Q. lra.
Qed.

(** X5.  The column index of the ZIGZAG and CHAOS cases,
    [Math.floor((position + j + offset + cols) % cols)], for an offset
    between the integers [s] and [s + 1].  It lies in [0, cols), so the
    bounds check that guards the write always passes.  It is
    [(position + j + s) mod cols] or, when rounding the sum to binary64
    reaches the next integer, [(position + j + s + 1) mod cols]; it is the
    former whenever the offset keeps a margin of [1/256] from both
    integers. *)
Theorem offset_col_wraps position j offset s :
  0 <= position < 2 ^ 40 -> 0 <= j < 2 ^ 40 -> - cols <= s < 2 ^ 30 ->
  (inject_Z s <= offset)%Q -> (offset <= inject_Z s + 1)%Q ->
  0 <= offset_col position j offset < cols
  /\ (offset_col position j offset = (position + j + s) mod cols
      \/ offset_col position j offset = (position + j + s + 1) mod cols)
  /\ ((inject_Z s + (1 # 256) <= offset)%Q ->
      (offset <= inject_Z s + (255 # 256))%Q ->
      offset_col position j offset = (position + j + s) mod cols)
  /\ (forall a, set_checked (offset_col position j offset) a
                 = JsArray.set a (offset_col position j offset) true).
Proof.
  intros Hp Hj Hs Hoa Hob.
  pose proof (offset_col_near position j offset s Hp Hj Hs Hoa Hob) as Hnear.
  assert (Hrange : 0 <= offset_col position j offset < cols).
  { destruct Hnear as [-> | ->]; apply Z.mod_pos_bound; unfold cols; lia. }
  split; [exact Hrange|]. split; [exact Hnear|]. split.
  - intros Hlo Hhi.
    apply (offset_col_floor position j offset s (256 * s + 1) (256 * s + 255));
      try done; try lia.
    + to_Q. lra.
    + to_Q. lra.
  - intros a. unfold set_checked.
    destruct (Z.leb_spec 0 (offset_col position j offset)),
             (Z.ltb_spec (offset_col position j offset) cols); try lia. done.
Qed.

Lemma offset_col_wraps_witness :
  0 <= offset_col 16 0 (- (1 # 1125899906842624)) < cols
  /\ offset_col 16 0 (- (1 # 1125899906842624)) = (16 + 0 + -1 + 1) mod cols.
Proof.
  destruct (offset_col_wraps 16 0 (- (1 # 1125899906842624)) (-1))
    as (Hrange & _ & _); [by vm_compute..|].
  split; [exact Hrange | by vm_compute].
Defined.

Lemma for_j_ext body1 body2 a :
  (forall j a', 0 <= j < waveWidth -> body1 j a' = body2 j a') ->
  for_j body1 a = for_j body2 a.
Proof.
  intros Hext. unfold for_j.
  assert (Hjs : Forall (fun j => 0 <= j < waveWidth) (seqZ 0 waveWidth)).
  { apply Forall_forall. intros j Hj. apply elem_of_seqZ in Hj. lia. }
  revert Hjs. generalize (seqZ 0 waveWidth). intros js Hjs. revert a.
  induction Hjs as [|j js Hj Hjs IH]; intros a; simpl; [done|].
  rewrite Hext by done. apply IH.
Qed.

Lemma NoDup_lit_columns a : NoDup (JsArray.lit_columns a).
Proof.
  unfold JsArray.lit_columns. apply NoDup_ListNoDup, List.NoDup_filter.
  apply NoDup_ListNoDup, NoDup_seqZ.
Qed.

(** The lit cells of a row of the offset patterns are the columns the
    inner loop computes, when each of them passes the bounds check. *)
Lemma offset_row_columns position offset :
  (forall j, 0 <= j < waveWidth -> 0 <= offset_col position j offset < cols) ->
  let a := for_j (fun j => set_checked (offset_col position j offset))
                 (JsArray.fill cols false) in
  (forall c, c ∈ JsArray.lit_columns a
             <-> exists j, 0 <= j < waveWidth /\ c = offset_col position j offset)
  /\ (1 <= List.length (JsArray.lit_columns a) <= Z.to_nat waveWidth)%nat.
Proof.
  intros Hcol a.
  set (targets := fun j => [offset_col position j offset]).
  assert (Ea : a = write_all (seqZ 0 waveWidth ≫= targets) (JsArray.fill cols false)).
  { unfold a. rewrite <- for_j_write_all. apply for_j_ext. intros j a' Hj.
    destruct (Hcol j Hj) as [H0 H1]. unfold set_checked, targets.
    apply Z.leb_le in H0. apply Z.ltb_lt in H1. by rewrite H0, H1. }
  assert (Hbelow : Forall (fun k => k < cols) (seqZ 0 waveWidth ≫= targets)).
  { apply Forall_forall. intros k Hk.
    apply list_elem_of_bind in Hk as (j & Hk & Hj).
    apply list_elem_of_singleton in Hk as ->. apply elem_of_seqZ in Hj.
    apply Hcol. lia. }
  assert (Hmem : forall c, c ∈ JsArray.lit_columns a
            <-> exists j, 0 <= j < waveWidth /\ c = offset_col position j offset).
  { intros c. rewrite Ea, elem_of_lit_columns, length_write_all by done.
    rewrite truthy_write_all, truthy_fill, list_elem_of_bind.
    unfold targets. setoid_rewrite list_elem_of_singleton.
    setoid_rewrite elem_of_seqZ. cbn [JsArray.length JsArray.fill]. split.
    - intros [Hc [?|(j & -> & Hj)]]; [done|]. exists j. split; [lia | done].
    - intros (j & Hj & ->). split; [by apply Hcol|].
      right. exists j. split; [done | lia]. }
  split; [exact Hmem|]. split.
  - assert (Hin : offset_col position 0 offset ∈ JsArray.lit_columns a).
    { apply Hmem. exists 0. by split. }
    destruct (JsArray.lit_columns a); [by apply elem_of_nil in Hin | simpl; lia].
  - assert (Hsub : JsArray.lit_columns a
                   ⊆+ (fun j => offset_col position j offset) <$> seqZ 0 waveWidth).
    { apply NoDup_submseteq; [apply NoDup_lit_columns|].
      intros c Hc. apply Hmem in Hc as (j & Hj & ->).
      apply list_elem_of_fmap. exists j. split; [done|].
      apply elem_of_seqZ. lia. }
    apply submseteq_length in Hsub.
    by rewrite length_fmap, length_seqZ in Hsub.
Qed.

(** A row whose columns all have the same shift [s] is a band of
    [waveWidth] cells. *)
Lemma offset_row_band position offset s :
  (forall j, 0 <= j < waveWidth ->
     offset_col position j offset = (position + j + s) mod cols) ->
  let a := for_j (fun j => set_checked (offset_col position j offset))
                 (JsArray.fill cols false) in
  (forall c, c ∈ JsArray.lit_columns a
             <-> exists j, 0 <= j < waveWidth /\ c = (position + j + s) mod cols)
  /\ List.length (JsArray.lit_columns a) = Z.to_nat waveWidth.
Proof.
  intros Hcol a.
  destruct (offset_row_columns position offset) as [Hmem' _].
  { intros j Hj. rewrite Hcol by done. apply Z.mod_pos_bound. unfold cols. lia. }
  fold a in Hmem'.
  assert (Hmem : forall c, c ∈ JsArray.lit_columns a
            <-> exists j, 0 <= j < waveWidth /\ c = (position + j + s) mod cols).
  { intros c. rewrite Hmem'. split; intros (j & Hj & ->); exists j;
      (split; [done|]); by rewrite Hcol. }
  split; [exact Hmem|].
  assert (Hperm : JsArray.lit_columns a
                  ≡ₚ (fun j => (position + j + s) mod cols) <$> seqZ 0 waveWidth).
  { apply NoDup_Permutation.
    - apply NoDup_lit_columns.
    - apply NoDup_fmap_2_strong; [|apply NoDup_seqZ].
      intros j1 j2 Hj1 Hj2 E. apply elem_of_seqZ in Hj1, Hj2.
      unfold cols, waveWidth in *. revert E.
      Z.to_euclidean_division_equations. lia.
    - intros c. rewrite Hmem, list_elem_of_fmap.
      setoid_rewrite elem_of_seqZ. split.
      + intros (j & Hj & ->). exists j. split; [done | lia].
      + intros (j & -> & Hj). exists j. split; [lia | done]. }
  rewrite Hperm, length_fmap, length_seqZ. done.
Qed.

Lemma grid_row_generate_CHAOS direction random position i :
  0 <= i < rows ->
  grid_row (generate CHAOS direction random position) i
  = Some (for_j (fun j => set_checked
                            (offset_col position j (fsub (fmul (random i) 4) 2)))
                (JsArray.fill cols false)).
Proof.
  intros Hi. unfold generate, updateWavePattern.
  by rewrite grid_row_for_i, grid_row_createEmptyGrid by done.
Qed.

Lemma grid_row_generate_ZIGZAG direction random position i :
  0 <= i < rows ->
  grid_row (generate ZIGZAG direction random position) i
  = Some (for_j (fun j => set_checked (offset_col position j (zigzag_offset i)))
                (JsArray.fill cols false)).
Proof.
  intros Hi. unfold generate, updateWavePattern.
  by rewrite grid_row_for_i, grid_row_createEmptyGrid by done.
Qed.

(** The offset [Math.random() * 4 - 2] of a CHAOS row, rounded, between the
    multiples of [1/256] that enclose the exact one. *)
Lemma chaos_offset_dyadic r a b :
  -512 <= a -> b <= 512 ->
  (inject_Z a <= (r * 4 - 2) * 256)%Q -> ((r * 4 - 2) * 256 <= inject_Z b)%Q ->
  (inject_Z a <= fsub (fmul r 4) 2 * 256
   /\ fsub (fmul r 4) 2 * 256 <= inject_Z b)%Q.
Proof.
  intros Ha Hb Hra Hrb. unfold fsub, fmul.
  destruct (round64_dyadic (r * 4) (a + 512) (b + 512)) as [H1 H1'];
    [pow_lia | pow_lia | | |].
  { rewrite inject_Z_plus. change (inject_Z 512) with 512%Q. lra. }
  { rewrite inject_Z_plus. change (inject_Z 512) with 512%Q. lra. }
  rewrite inject_Z_plus in H1, H1'. change (inject_Z 512) with 512%Q in H1, H1'.
  set (m := round64 (r * 4)) in *. clearbody m.
  apply round64_dyadic; [pow_lia | pow_lia | lra | lra].
Qed.

(** X6.  A row of the CHAOS pattern, for a draw in [0, 1).  Every lit cell
    is a column [(position + j + t) mod cols] of the band of [waveWidth]
    columns that starts at [position], shifted by some [t] from -2 to 2 and
    wrapped around the edges; every [j] lights such a cell, so between 1
    and [waveWidth] cells are lit.  The shift need not be the same for all
    columns of a row: rounding the sum to binary64 can move a column to its
    neighbour.  When the exact offset [random * 4 - 2] keeps a margin of
    [1/256] from the integers [s] and [s + 1] around it, the row is exactly
    the band shifted by [s], with [waveWidth] lit cells. *)
Theorem CHAOS_row_wraps direction random position i :
  0 <= position < 2 ^ 40 -> 0 <= i < rows -> unit_draw (random i) ->
  let row := lit_in_row (generate CHAOS direction random position) i in
  (forall c, c ∈ row ->
     exists j t, 0 <= j < waveWidth /\ -2 <= t <= 2
                 /\ c = (position + j + t) mod cols)
  /\ (forall j, 0 <= j < waveWidth ->
        exists t, -2 <= t <= 2 /\ (position + j + t) mod cols ∈ row)
  /\ (1 <= lit_count (generate CHAOS direction random position) i
      <= Z.to_nat waveWidth)%nat
  /\ (forall s,
        (inject_Z s + (1 # 256) <= random i * 4 - 2)%Q ->
        (random i * 4 - 2 <= inject_Z s + (255 # 256))%Q ->
        -2 <= s <= 1
        /\ (forall c, c ∈ row
                      <-> exists j, 0 <= j < waveWidth
                                    /\ c = (position + j + s) mod cols)
        /\ lit_count (generate CHAOS direction random position) i
           = Z.to_nat waveWidth).
Proof.
  intros Hp Hi [Hr0 Hr1] row. subst row.
  unfold lit_count, lit_in_row. rewrite grid_row_generate_CHAOS by done.
  set (offset := fsub (fmul (random i) 4) 2).
  assert (Hj40 : forall j, 0 <= j < waveWidth -> 0 <= j < 2 ^ 40).
  { intros j. pow_lia. }
  destruct (chaos_offset_dyadic (random i) (-512) 512) as [Ho1 Ho2];
    [lia | lia | | |].
  { change (inject_Z (-512)) with (-512)%Q. lra. }
  { change (inject_Z 512) with 512%Q. lra. }
  fold offset in Ho1, Ho2.
  change (inject_Z (-512)) with (-512)%Q in Ho1.
  change (inject_Z 512) with 512%Q in Ho2.
  (* an integer just below the rounded offset *)
  set (s0 := Z.min (Qfloor offset) 1).
  assert (Hs0 : -2 <= s0 <= 1 /\ (inject_Z s0 <= offset)%Q
                /\ (offset <= inject_Z s0 + 1)%Q).
  { pose proof (Qfloor_le offset) as Hf1. pose proof (Qlt_floor offset) as Hf2.
    assert (Hf : -2 <= Qfloor offset).
    { rewrite <- (Qfloor_Z (-2)). apply Qfloor_resp_le.
      change (inject_Z (-2)) with (-2)%Q. lra. }
    rewrite inject_Z_plus in Hf2. change (inject_Z 1) with 1%Q in Hf2.
    unfold s0. destruct (Z.min_spec (Qfloor offset) 1) as [[Hlt ->]|[Hge ->]].
    - split; [lia|]. split; [done | lra].
    - split; [lia|]. change (inject_Z 1) with 1%Q. split; [|lra].
      eapply Qle_trans; [|exact Hf1].
      change 1%Q with (inject_Z 1). rewrite <- Zle_Qle. lia. }
  destruct Hs0 as (Hs0 & Hlo0 & Hhi0).
  assert (Hs30 : - cols <= s0 < 2 ^ 30).
  { pow_lia. }
  assert (Hnear : forall j, 0 <= j < waveWidth ->
            offset_col position j offset = (position + j + s0) mod cols
            \/ offset_col position j offset = (position + j + s0 + 1) mod cols).
  { intros j Hj. apply offset_col_near; auto. }
  destruct (offset_row_columns position offset) as [Hmem Hcount].
  { intros j Hj. destruct (Hnear j Hj) as [-> | ->];
      apply Z.mod_pos_bound; unfold cols; lia. }
  split; [|split; [|split]].
  - intros c Hc. apply Hmem in Hc as (j & Hj & ->).
    destruct (Hnear j Hj) as [-> | ->].
    + exists j, s0. repeat split; try lia.
    + exists j, (s0 + 1). repeat split; try lia. f_equal. lia.
  - intros j Hj. destruct (Hnear j Hj) as [E|E].
    + exists s0. split; [lia|]. rewrite <- E. apply Hmem. by exists j.
    + exists (s0 + 1). split; [lia|].
      replace (position + j + (s0 + 1)) with (position + j + s0 + 1) by lia.
      rewrite <- E. apply Hmem. by exists j.
  - exact Hcount.
  - intros s Hslo Hshi.
    assert (Hs : -2 <= s <= 1).
    { assert (H1 : (inject_Z s < 2)%Q) by lra.
      assert (H2 : (-3 < inject_Z s)%Q) by lra.
      change 2%Q with (inject_Z 2) in H1. change (-3)%Q with (inject_Z (-3)) in H2.
      rewrite <- Zlt_Qlt in H1, H2. lia. }
    split; [exact Hs|].
    destruct (chaos_offset_dyadic (random i) (256 * s + 1) (256 * s + 255))
      as [Hd1 Hd2]; [lia | lia | to_Q; lra | to_Q; lra |].
    fold offset in Hd1, Hd2.
    apply offset_row_band. intros j Hj.
    apply (offset_col_floor position j offset s (256 * s + 1) (256 * s + 255));
      auto; try lia.
    pow_lia.
Qed.

Lemma CHAOS_row_wraps_witness :
  (1 <= lit_count (generate CHAOS 1 (fun _ => 1125899906842621 # 4503599627370496) 10) 4
   <= Z.to_nat waveWidth)%nat
  /\ lit_in_row (generate CHAOS 1 (fun _ => 1125899906842621 # 4503599627370496) 10) 4
     = [8; 9; 10; 11; 13; 14].
Proof.
  destruct (CHAOS_row_wraps 1 (fun _ => 1125899906842621 # 4503599627370496) 10 4)
    as (_ & _ & Hcount & _); [by vm_compute..|].
  split; [exact Hcount | by vm_compute].
Defined.

Lemma zigzag_margin_all : forallb zigzag_margin_ok (seqZ 0 rows) = true.
Proof. vm_compute. reflexivity. Qed.

(** X7.  A row [i] of the ZIGZAG pattern, for a position that is not
    negative and below [2^40], far from the integers a double no longer
    tells apart: the lit cells are the band of [waveWidth] columns that
    starts at [position + floor(sin(i * 0.5) * 3)], wrapped around the
    edges modulo [cols], and exactly [waveWidth] cells are lit. *)
Theorem ZIGZAG_row_wraps direction random position i :
  0 <= position < 2 ^ 40 -> 0 <= i < rows ->
  (forall c,
     c ∈ lit_in_row (generate ZIGZAG direction random position) i
     <-> exists j, 0 <= j < waveWidth
                   /\ c = (position + j + Qfloor (zigzag_offset i)) mod cols)
  /\ lit_count (generate ZIGZAG direction random position) i = Z.to_nat waveWidth.
Proof.
  intros Hp Hi.
  pose proof zigzag_margin_all as Hall. rewrite forallb_forall in Hall.
  specialize (Hall i). unfold zigzag_margin_ok in Hall.
  rewrite !andb_true_iff, !Z.leb_le, Z.ltb_lt in Hall.
  destruct Hall as (((Hs1 & Hs2) & Ha) & Hb).
  { apply list_elem_of_In, elem_of_seqZ. lia. }
  unfold lit_count, lit_in_row. rewrite grid_row_generate_ZIGZAG by done.
  apply offset_row_band. intros j Hj.
  pose proof (Qfloor_le (zigzag_offset i * 256)) as Hf1.
  pose proof (Qlt_floor (zigzag_offset i * 256)) as Hf2.
  apply (offset_col_floor position j (zigzag_offset i) (Qfloor (zigzag_offset i))
           (Qfloor (zigzag_offset i * 256))
           (Qfloor (zigzag_offset i * 256) + 1)); try done.
  - pow_lia.
  - by apply Qlt_le_weak.
Qed.

Lemma ZIGZAG_row_wraps_witness :
  lit_count (generate ZIGZAG 1 no_random 19) 9 = Z.to_nat waveWidth
  /\ lit_in_row (generate ZIGZAG 1 no_random 19) 9 = [0; 1; 16; 17; 18; 19].
Proof.
  destruct (ZIGZAG_row_wraps 1 no_random 19 9) as [_ H]; [by vm_compute..|].
  split; [exact H | by vm_compute].
Defined.

(** The bound on the position is needed: from [2^53] on a double no longer
    holds the odd integers, and row 1 at position [2^53] has three lit
    cells instead of the band 13 .. 18. *)
Lemma ZIGZAG_far_position :
  lit_in_row (generate ZIGZAG 1 no_random (2 ^ 53)) 1 = [14; 16; 18].
Proof. by vm_compute. Qed.

(** * Ranges and progression of the game state *)

Lemma hitPoints_at_least_100 c l d :
  0 <= c -> 1 <= l -> (1 <= d)%Q -> (100 <= hitPoints c l d)%Q.
Proof.
  intros Hc Hl Hd. unfold hitPoints.
  assert (Hcm : (1 <= inject_Z (Z.min (c + 1) 5))%Q).
  { change 1%Q with (inject_Z 1). rewrite <- Zle_Qle. lia. }
  assert (Hlv : (1 <= inject_Z l)%Q).
  { change 1%Q with (inject_Z 1). rewrite <- Zle_Qle. lia. }
  generalize dependent (inject_Z (Z.min (c + 1) 5)).
  generalize dependent (inject_Z l). intros x Hx y Hy.
  assert (H1 : (1 <= y * x)%Q) by nra.
  assert (H2 : (1 <= y * x * d)%Q) by nra.
  lra.
Qed.

Lemma difficulty_step d :
  (1 <= d /\ d <= 3)%Q -> (1 <= Qmin (d + (1 # 2)) 3 /\ Qmin (d + (1 # 2)) 3 <= 3)%Q.
Proof.
  intros H. destruct (Q.min_spec (d + (1 # 2)) 3) as [[? E]|[? E]];
    rewrite E; lra.
Qed.

Lemma speed_step v :
  (50 <= v /\ v <= 100)%Q -> (50 <= Qmax (v * (9 # 10)) 50 /\ Qmax (v * (9 # 10)) 50 <= 100)%Q.
Proof.
  intros H. destruct (Q.max_spec (v * (9 # 10)) 50) as [[? E]|[? E]];
    rewrite E; lra.
Qed.

Lemma in_bounds_mounted d : in_bounds (mounted d).
Proof.
  unfold in_bounds, mounted. callback.
  repeat split; try done; try lia; try (by left).
  unfold createEmptyGrid. by apply Forall_replicate.
Qed.

Lemma empty_rows_have_cols :
  Forall (fun a => JsArray.length a = cols) createEmptyGrid.
Proof. unfold createEmptyGrid. by apply Forall_replicate. Qed.

Lemma in_bounds_step s ev :
  well_formed s -> in_bounds s -> in_bounds (step s ev).
Proof.
  intros (_ & _ & Hcombo & _ & _)
         (Hlevel & Hdiff & Hspeed & Hscore & Hhigh & Hdir & Hcolor & Hover & Hgrid).
  pose proof (hitPoints_at_least_100 _ _ _ Hcombo Hlevel (proj1 Hdiff)) as Hpts.
  pose proof (difficulty_step _ Hdiff) as Hdiff'.
  pose proof (speed_step _ Hspeed) as Hspeed'.
  pose proof (Q.le_max_r (highScore s) (score s)) as Hmax1.
  pose proof (Q.le_max_l (highScore s) (score s)) as Hmax2.
  unfold in_bounds.
  destruct (isPlaying s) eqn:Hp; destruct (gameOver s) eqn:Ho;
    destruct ev as [position random| |d|r| |row col d|d|d];
    scheduler; callback; unfold resolveClick;
    repeat first
      [ rewrite Hp | rewrite Ho | progress fields
      | match goal with
        | |- context [if ?b then _ else _] => destruct b eqn:?
        | |- context [match ?o with Some _ => _ | None => _ end] =>
            destruct o eqn:?
        end ];
    (split; [lia|]);
    (split; [first [ exact Hdiff | exact Hdiff' | split; lra ]|]);
    (split; [first [ exact Hspeed | exact Hspeed' | split; lra ]|]);
    (split; [lra|]);
    (split; [lra|]);
    (split; [lia|]);
    (split; [first [ lia | Z.to_euclidean_division_equations; lia ]|]);
    (split;
     [first [ done | intros _; lra | intros Ht; apply Hover in Ht; lra ]|]);
    first [ exact Hgrid | apply generate_rows_have_cols
          | apply empty_rows_have_cols ].
Qed.

Lemma reachable_in_bounds s : reachable s -> in_bounds s.
Proof.
  induction 1 as [d Hd | s ev Hs IH Hev].
  - apply in_bounds_mounted.
  - apply in_bounds_step; [by apply reachable_well_formed | done].
Qed.

Lemma difficultyAt_next l d :
  1 <= l -> (d == difficultyAt l)%Q ->
  (if Z.rem (l + 1) 3 =? 0 then Qmin (d + (1 # 2)) 3 else d)
  == difficultyAt (l + 1).
Proof.
  intros Hl Hd. unfold difficultyAt in *.
  destruct (Z.eqb_spec (Z.rem (l + 1) 3) 0) as [E|E].
  - assert (Hdiv : (l + 1) / 3 = l / 3 + 1).
    { revert E. Z.to_euclidean_division_equations. lia. }
    rewrite Hdiv, inject_Z_plus. change (inject_Z 1) with 1%Q.
    generalize dependent (inject_Z (l / 3)). intros k Hd.
    destruct (Q.min_spec (1 + k * (1 # 2)) 3) as [[? E1]|[? E1]];
      rewrite E1 in Hd;
      destruct (Q.min_spec (d + (1 # 2)) 3) as [[? E2]|[? E2]];
      rewrite E2;
      destruct (Q.min_spec (1 + (k + 1) * (1 # 2)) 3) as [[? E3]|[? E3]];
      rewrite E3; lra.
  - assert (Hdiv : (l + 1) / 3 = l / 3).
    { revert E. Z.to_euclidean_division_equations. lia. }
    by rewrite Hdiv.
Qed.

Lemma difficulty_follows_level_step s ev :
  1 <= level s ->
  (difficulty s == difficultyAt (level s))%Q ->
  (difficulty (step s ev) == difficultyAt (level (step s ev)))%Q.
Proof.
  intros Hl Hd.
  pose proof (difficultyAt_next _ _ Hl Hd) as Hnext.
  destruct ev as [position random| |d|r| |row col d|d|d];
    scheduler; callback; unfold resolveClick; branches;
    try exact Hd; try reflexivity; exact Hnext.
Qed.

Lemma reachable_difficulty s :
  reachable s -> (difficulty s == difficultyAt (level s))%Q.
Proof.
  induction 1 as [d Hd | s ev Hs IH Hev].
  - reflexivity.
  - apply difficulty_follows_level_step; [|done].
    by apply reachable_in_bounds in Hs as [? _].
Qed.

(** X8.  In every state the game can reach: the level is at least 1, the
    combo is not negative, the lives are between 0 and 3, the difficulty
    between 1 and 3, the speed between 50 and 100, score and high score are
    not negative; the game is over exactly when no life is left, and then
    the high score is at least the score. *)
Theorem progression_stays_in_range s :
  reachable s ->
  1 <= level s /\ 0 <= combo s /\ 0 <= lives s <= 3
  /\ (1 <= difficulty s /\ difficulty s <= 3)%Q
  /\ (50 <= speed s /\ speed s <= 100)%Q
  /\ (0 <= score s)%Q /\ (0 <= highScore s)%Q
  /\ (gameOver s = true <-> lives s = 0)
  /\ (gameOver s = true -> (score s <= highScore s)%Q).
Proof.
  intros Hs.
  destruct (reachable_well_formed s Hs) as (_ & _ & Hcombo & Hlives & _).
  destruct (reachable_in_bounds s Hs)
    as (Hlevel & Hdiff & Hspeed & Hscore & Hhigh & _ & _ & Hover & _).
  repeat split; try done; try lia; try lra;
    destruct Hlives as [[Ho Hl]|[Ho Hl]]; rewrite ?Ho in *; try done; lia.
Qed.

Lemma progression_stays_in_range_witness :
  reachable after_one_hit
  /\ 1 <= level after_one_hit /\ 0 <= lives after_one_hit <= 3
  /\ (0 <= score after_one_hit)%Q.
Proof.
  assert (Hr : reachable after_one_hit)
    by exact (reach_step lit_state (Click 0 1 draws1)
                reachable_lit_state valid_draws1).
  destruct (progression_stays_in_range after_one_hit Hr)
    as (Hl & _ & Hv & _ & _ & Hs & _).
  exact (conj Hr (conj Hl (conj Hv Hs))).
Defined.

(** X9.  In every reachable state the difficulty is a function of the
    level, [min(1 + 0.5 * floor(level / 3), 3)]: it is 1 below level 3 and
    stays at its maximum 3 from level 12 on. *)
Theorem difficulty_follows_level s :
  reachable s ->
  (difficulty s == Qmin (1 + inject_Z (level s / 3) * (1 # 2)) 3)%Q
  /\ (12 <= level s -> (difficulty s == 3)%Q)
  /\ (level s < 3 -> (difficulty s == 1)%Q).
Proof.
  intros Hs. pose proof (reachable_difficulty s Hs) as Hd.
  pose proof (reachable_in_bounds s Hs) as [Hl _].
  unfold difficultyAt in Hd. split; [exact Hd|]. split.
  - intros H12. rewrite Hd.
    assert (Hk : (4 <= inject_Z (level s / 3))%Q).
    { change 4%Q with (inject_Z 4). rewrite <- Zle_Qle.
      Z.to_euclidean_division_equations. lia. }
    apply Q.min_r. lra.
  - intros H3. rewrite Hd.
    assert (Hk : level s / 3 = 0) by (Z.to_euclidean_division_equations; lia).
    rewrite Hk. rewrite Q.min_l by (by vm_compute). by vm_compute.
Qed.

Lemma difficulty_follows_level_witness :
  reachable after_one_hit /\ (difficulty after_one_hit == 1)%Q.
Proof.
  assert (Hr : reachable after_one_hit)
    by exact (reach_step lit_state (Click 0 1 draws1)
                reachable_lit_state valid_draws1).
  destruct (difficulty_follows_level after_one_hit Hr) as (_ & _ & H1).
  split; [exact Hr|]. apply H1. by vm_compute.
Defined.

(** X10.  No event lowers the high score: no click, no timer, not the
    Play/Pause button and not a new game. *)
Theorem highScore_never_decreases s ev :
  (highScore s <= highScore (step s ev))%Q.
Proof.
  pose proof (Q.le_max_l (highScore s) (score s)) as Hmax.
  destruct ev as [position random| |d|r| |row col d|d|d];
    scheduler; callback; unfold resolveClick; branches;
    first [ apply Qle_refl | exact Hmax ].
Qed.

(** X11.  Apart from a new game, an event either leaves the lives as they
    are or takes exactly one; a life is taken only by a miss (a click
    resolved as a miss, or a target expiry) while the game runs and no
    shield is active. *)
Theorem lives_lost_only_by_unshielded_miss s ev :
  is_reset ev = false ->
  lives (step s ev) = lives s
  \/ (lives (step s ev) = lives s - 1
      /\ is_miss s ev /\ powerUpActive s = false /\ timersRunning s = true).
Proof.
  intros Hev.
  destruct ev as [position random| |d|r| |row col d|d|d];
    scheduler; try done; unfold timersRunning; callback; unfold resolveClick;
    destruct (isPlaying s) eqn:Hp; destruct (gameOver s) eqn:Ho;
    destruct (powerUpActive s) eqn:Hu; fields; branches;
    first [ by left | right; by repeat split
          | exfalso; rewrite ?Hu in *; cbn [negb] in *; congruence ].
Qed.

Lemma lives_lost_only_by_unshielded_miss_witness :
  lives (step s_combo2 s_wrong_cell) = lives s_combo2
  \/ (lives (step s_combo2 s_wrong_cell) = lives s_combo2 - 1
      /\ is_miss s_combo2 s_wrong_cell /\ powerUpActive s_combo2 = false
      /\ timersRunning s_combo2 = true).
Proof.
  apply (lives_lost_only_by_unshielded_miss s_combo2 s_wrong_cell). reflexivity.
Defined.

(** X12.  Apart from a new game, level, difficulty, speed and wave pattern
    change only in a level-up, which only a hit brings.  The level then
    grows by one; difficulty and speed change only if the new level is a
    multiple of 3 (difficulty plus 0.5, at most 3; speed times 0.9, at
    least 50), and the pattern only if the new level is a multiple of 5. *)
Theorem progression_changes_only_at_level_up s ev :
  is_reset ev = false ->
  let s' := step s ev in
  (level s' = level s /\ difficulty s' = difficulty s /\ speed s' = speed s
   /\ wavePattern s' = wavePattern s)
  \/ (level s' = level s + 1
      /\ (exists row col d, ev = Click row col d /\ resolveClick s row col = Hit)
      /\ (Z.rem (level s') 3 <> 0 ->
          difficulty s' = difficulty s /\ speed s' = speed s)
      /\ (Z.rem (level s') 3 = 0 ->
          difficulty s' = Qmin (difficulty s + (1 # 2)) 3
          /\ speed s' = Qmax (speed s * (9 # 10)) 50)
      /\ (Z.rem (level s') 5 <> 0 -> wavePattern s' = wavePattern s)).
Proof.
  intros Hev s'. subst s'.
  destruct ev as [position random| |d|r| |row col d|d|d];
    scheduler; try done;
    try (left; callback; branches; by repeat split).
  unfold handleCellClick.
  destruct (resolveClick s row col) eqn:Hres;
    try (left; callback; branches; by repeat split).
  callback. branches;
    first
      [ left; by repeat split
      | right; split; [done|]; split; [by eexists _, _, _|];
        repeat match goal with
               | H : (_ =? 0) = true |- _ => apply Z.eqb_eq in H
               | H : (_ =? 0) = false |- _ => apply Z.eqb_neq in H
               end;
        repeat split; intros; done ].
Qed.

Lemma progression_changes_only_at_level_up_witness :
  level (step s_overshoot (Click 4 5 draws1)) = level s_overshoot + 1
  /\ difficulty (step s_overshoot (Click 4 5 draws1)) = difficulty s_overshoot.
Proof.
  destruct (progression_changes_only_at_level_up s_overshoot (Click 4 5 draws1)
              eq_refl) as [(H & _)|(Hl & _ & Hd & _)].
  - exfalso. revert H. by vm_compute.
  - split; [exact Hl|]. apply Hd. by vm_compute.
Defined.

(** X13.  In a reachable state an event other than a new game changes the
    score only if it is a hit, and a hit adds its points, which are at
    least 100.  So the score never decreases during a game. *)
Theorem score_grows_only_by_hits s ev :
  reachable s -> is_reset ev = false ->
  score (step s ev) = score s
  \/ (exists row col d,
        ev = Click row col d /\ resolveClick s row col = Hit
        /\ score (step s ev)
           = (score s + hitPoints (combo s) (level s) (difficulty s))%Q
        /\ (score s + 100 <= score (step s ev))%Q).
Proof.
  intros Hs Hev.
  destruct (reachable_well_formed s Hs) as (_ & _ & Hcombo & _).
  destruct (reachable_in_bounds s Hs) as (Hlevel & [Hdiff _] & _).
  pose proof (hitPoints_at_least_100 _ _ _ Hcombo Hlevel Hdiff) as Hpts.
  destruct ev as [position random| |d|r| |row col d|d|d];
    scheduler; try done;
    try (left; callback; by branches).
  unfold handleCellClick.
  destruct (resolveClick s row col) eqn:Hres;
    try (left; callback; by branches).
  right. exists row, col, d.
  destruct (hit_counters d s) as (Hscore & _).
  rewrite Hscore. repeat split; try done. lra.
Qed.

Lemma score_grows_only_by_hits_witness :
  reachable lit_state
  /\ (score (step lit_state (Click 0 1 draws1)) = score lit_state
      \/ exists row col d,
           Click 0 1 draws1 = Click row col d
           /\ resolveClick lit_state row col = Hit
           /\ score (step lit_state (Click 0 1 draws1))
              = (score lit_state
                 + hitPoints (combo lit_state) (level lit_state)
                             (difficulty lit_state))%Q
           /\ (score lit_state + 100 <= score (step lit_state (Click 0 1 draws1)))%Q).
Proof.
  split; [exact reachable_lit_state|].
  exact (score_grows_only_by_hits lit_state (Click 0 1 draws1)
           reachable_lit_state eq_refl).
Defined.

(** X14.  While the shield is active a target expiry changes nothing at
    all, a missed click only resets the combo, and no event other than a
    new game changes the lives or ends the game. *)
Theorem shield_blocks_every_penalty s d row col :
  powerUpActive s = true ->
  step s (TargetCheck d) = s
  /\ (resolveClick s row col = Miss ->
      step s (Click row col d) = setCombo (fun _ => 0) s)
  /\ (forall ev, is_reset ev = false ->
        lives (step s ev) = lives s /\ gameOver (step s ev) = gameOver s).
Proof.
  intros Hu. split; [|split].
  - scheduler. unfold when, skip. destruct (timersRunning s); [|done].
    unfold targetCheck. rewrite Hu. by destruct (targetCell s).
  - intros Hres. scheduler. unfold handleCellClick. rewrite Hres.
    unfold miss, andThen, when, skip. by rewrite Hu.
  - intros ev Hev.
    destruct ev as [position random| | | | |row' col' d'| |];
      scheduler; try done; callback; unfold resolveClick;
      rewrite ?Hu; fields; branches; rewrite ?Hu in *; by cbn [negb] in *.
Qed.

Lemma shield_blocks_every_penalty_witness :
  powerUpActive s_shielded = true
  /\ step s_shielded (TargetCheck draws1) = s_shielded
  /\ lives (step s_shielded (Click 1 1 draws1)) = 1.
Proof.
  assert (Hu : powerUpActive s_shielded = true) by reflexivity.
  destruct (shield_blocks_every_penalty s_shielded draws1 1 1 Hu)
    as (He & _ & Hl).
  split; [exact Hu|]. split; [exact He|].
  exact (proj1 (Hl (Click 1 1 draws1) eq_refl)).
Defined.

(** X15.  While the game is paused or over, the four interval callbacks
    and the clicks on the grid leave the whole state as it is; once the
    game is over the Play/Pause button does so too. *)
Theorem nothing_runs_while_paused_or_over s ev :
  timersRunning s = false ->
  match ev with
  | NewGame _ | PowerUpOff => True
  | TogglePlay _ => gameOver s = true -> step s ev = s
  | _ => step s ev = s
  end.
Proof.
  intros Hrun.
  destruct ev as [position random| |d|r| |row col d|d|d];
    scheduler; rewrite ?Hrun; try done.
  - unfold handleCellClick, resolveClick. unfold timersRunning in Hrun.
    by destruct (isPlaying s), (gameOver s).
  - by intros ->.
Qed.

Lemma nothing_runs_while_paused_or_over_witness :
  timersRunning s_paused = false
  /\ step s_paused (Click 0 1 draws1) = s_paused
  /\ step s_paused (TargetCheck draws1) = s_paused.
Proof.
  assert (Hrun : timersRunning s_paused = false) by (by vm_compute).
  split; [exact Hrun|]. split.
  - exact (nothing_runs_while_paused_or_over s_paused (Click 0 1 draws1) Hrun).
  - exact (nothing_runs_while_paused_or_over s_paused (TargetCheck draws1) Hrun).
Defined.

(** X16.  Pressing Play/Pause twice while the game is not over changes
    nothing but the target, which is spawned anew from the draws made at
    the press that resumes the game. *)
Theorem pause_then_resume_respawns_target s d1 d2 :
  gameOver s = false ->
  step (step s (TogglePlay d1)) (TogglePlay d2)
  = generateNewTarget (if isPlaying s then d2 else d1) s.
Proof.
  intros Ho. destruct s as [g cc ip sp di sc hs lv co tc li go wp df pu].
  cbn [gameOver] in Ho. subst go. by destruct ip.
Qed.

Lemma pause_then_resume_respawns_target_witness :
  step (step lit_state (TogglePlay draws1)) (TogglePlay (mkDraws (1 # 2) (1 # 2) 0))
  = generateNewTarget (mkDraws (1 # 2) (1 # 2) 0) lit_state.
Proof.
  exact (pause_then_resume_respawns_target lit_state draws1
           (mkDraws (1 # 2) (1 # 2) 0) eq_refl).
Defined.

(** One target expiry with more than one life left. *)
Lemma expiry_with_lives_left s d :
  timersRunning s = true -> is_Some (targetCell s) ->
  powerUpActive s = false -> 2 <= lives s ->
  let s1 := step s (TargetCheck d) in
  timersRunning s1 = true /\ is_Some (targetCell s1)
  /\ powerUpActive s1 = false /\ lives s1 = lives s - 1
  /\ score s1 = score s /\ highScore s1 = highScore s /\ combo s1 = combo s.
Proof.
  intros Hrun [t Ht] Hu Hl. scheduler. rewrite Hrun.
  unfold timersRunning in *. callback. rewrite Ht, Hu. fields.
  destruct (Z.leb_spec (lives s - 1) 0); [lia|]. fields.
  repeat split; try done; by eexists.
Qed.

(** The expiry that takes the last life. *)
Lemma expiry_with_last_life s d :
  timersRunning s = true -> is_Some (targetCell s) ->
  powerUpActive s = false -> lives s = 1 ->
  let s1 := step s (TargetCheck d) in
  gameOver s1 = true /\ lives s1 = 0 /\ score s1 = score s
  /\ highScore s1 = Qmax (highScore s) (score s) /\ combo s1 = combo s.
Proof.
  intros Hrun [t Ht] Hu Hl. scheduler. rewrite Hrun.
  callback. rewrite Ht, Hu, Hl. fields. by repeat split.
Qed.

(** X17.  Left alone, the game ends: from a running state with a target,
    no shield and [n >= 1] lives, [n] target expiries in a row end the game
    with no life left, the score unchanged, the combo kept, and the high
    score raised to the score where that is higher. *)
Theorem unclicked_targets_end_the_game s ds :
  timersRunning s = true -> is_Some (targetCell s) ->
  powerUpActive s = false -> 1 <= lives s ->
  List.length ds = Z.to_nat (lives s) ->
  let s' := run s (TargetCheck <$> ds) in
  gameOver s' = true /\ lives s' = 0 /\ score s' = score s
  /\ highScore s' = Qmax (highScore s) (score s) /\ combo s' = combo s.
Proof.
  revert s. induction ds as [|d ds IH]; intros s Hrun Htarget Hu Hl Hlen.
  - simpl in Hlen. lia.
  - cbn [fmap list_fmap run foldl]. fold (run (step s (TargetCheck d)) (TargetCheck <$> ds)).
    destruct (decide (lives s = 1)) as [H1|H1].
    + destruct ds; [|simpl in Hlen; lia].
      by apply expiry_with_last_life.
    + destruct (expiry_with_lives_left s d) as (Hrun1 & Ht1 & Hu1 & Hl1 & Hs1 & Hh1 & Hc1);
        try done; [lia|].
      destruct (IH (step s (TargetCheck d))) as (Ho & Hl2 & Hs2 & Hh2 & Hc2);
        try done; [lia | simpl in Hlen; lia |].
      rewrite Hs1, Hh1, Hc1 in *. by repeat split.
Qed.

Lemma unclicked_targets_end_the_game_witness :
  gameOver (run lit_state (TargetCheck <$> [draws1; draws1; draws1])) = true
  /\ lives (run lit_state (TargetCheck <$> [draws1; draws1; draws1])) = 0.
Proof.
  assert (Hrun : timersRunning lit_state = true) by (by vm_compute).
  assert (Ht : is_Some (targetCell lit_state)) by (by eexists).
  assert (Hu : powerUpActive lit_state = false) by (by vm_compute).
  assert (Hl : 1 <= lives lit_state) by (by vm_compute).
  assert (Hn : List.length [draws1; draws1; draws1] = Z.to_nat (lives lit_state))
    by (by vm_compute).
  destruct (unclicked_targets_end_the_game lit_state [draws1; draws1; draws1]
              Hrun Ht Hu Hl Hn) as (Ho & Hl0 & _).
  exact (conj Ho Hl0).
Defined.

(** * Properties of what the component renders *)



(** X18.  In every reachable state rendering and clicking cannot fail:
    [COLORS[currentColor]] is a colour of the palette, [Array(lives)] gets
    a length that is not negative and yields one star per life, and no
    click on any cell throws on reading [grid[row][col]]. *)
Theorem render_never_fails s :
  reachable s ->
  is_Some (cellColor s)
  /\ stars (lives s) = Some (seqZ 0 (lives s))
  /\ (forall row col, resolveClick s row col <> Throws).
Proof.
  intros Hs.
  destruct (reachable_well_formed s Hs) as (Hlen & Htarget & _ & Hlives & _).
  destruct (reachable_in_bounds s Hs) as (_ & _ & _ & _ & _ & _ & Hcolor & _).
  split; [|split].
  - unfold cellColor. destruct (Z.ltb_spec (currentColor s) 0); [lia|].
    apply lookup_lt_is_Some. simpl. lia.
  - unfold stars. destruct (Z.ltb_spec (lives s) 0); [|done].
    destruct Hlives as [[_ ?]|[_ ?]]; lia.
  - intros row col. unfold resolveClick.
    destruct (negb (isPlaying s) || gameOver s); [done|].
    destruct (targetCell s) as [t|] eqn:Ht; [|done].
    destruct (Z.eqb_spec row (TargetCell.row t)) as [->|]; [|done].
    destruct (grid_row_is_Some _ _ Hlen (proj1 (Htarget t eq_refl))) as [a ->].
    by destruct (_ && _), (JsArray.truthy a col).
Qed.

Lemma render_never_fails_witness :
  reachable lit_state
  /\ is_Some (cellColor lit_state)
  /\ stars (lives lit_state) = Some (seqZ 0 (lives lit_state)).
Proof.
  destruct (render_never_fails lit_state reachable_lit_state) as (Hc & Hst & _).
  exact (conj reachable_lit_state (conj Hc Hst)).
Defined.



(** X20.  The wave speed shown in the statistics panel,
    [Math.round(100 - (speed - 50) / 1.5)], lies between 67 and 100 percent
    in every reachable state: it is 67 at the initial speed 100 and 100 at
    the top speed 50. *)
Theorem wave_speed_shown_in_range s :
  reachable s ->
  67 <= waveSpeedPercent s <= 100
  /\ ((speed s == 100)%Q -> waveSpeedPercent s = 67)
  /\ ((speed s == 50)%Q -> waveSpeedPercent s = 100).
Proof.
  intros Hs.
  destruct (reachable_in_bounds s Hs) as (_ & _ & Hspeed & _).
  unfold waveSpeedPercent, Math_round.
  set (y := ((speed s - 50) / (3 # 2))%Q).
  assert (Ey : (speed s - 50 == y * (3 # 2))%Q) by (unfold y; field).
  clearbody y. split; [split|split].
  - rewrite <- (Qfloor_Z 67). apply Qfloor_resp_le.
    change (inject_Z 67) with 67%Q. lra.
  - assert (H : Qfloor (100 - y + (1 # 2)) < 101); [|lia].
    rewrite Zlt_Qlt. eapply Qle_lt_trans; [apply Qfloor_le|].
    change (inject_Z 101) with 101%Q. lra.
  - intros E. apply Qfloor_unique.
    + change (inject_Z 67) with 67%Q. lra.
    + change (inject_Z (67 + 1)) with 68%Q. lra.
  - intros E. apply Qfloor_unique.
    + change (inject_Z 100) with 100%Q. lra.
    + change (inject_Z (100 + 1)) with 101%Q. lra.
Qed.

Lemma wave_speed_shown_in_range_witness :
  reachable lit_state /\ waveSpeedPercent lit_state = 67.
Proof.
  destruct (wave_speed_shown_in_range lit_state reachable_lit_state)
    as (_ & H100 & _).
  split; [exact reachable_lit_state|]. apply H100. reflexivity.
Defined.

(** * Properties of targets, sweeps and shields *)

(** X21.  When the target moves.  A hit, a target expiry (timers running,
    a target active, no shield), Play pressed on a paused game that is not
    over, and New Game after a game over with [isPlaying] still set each
    spawn a fresh target from the draws; every other event, a missed click
    included, leaves the target where it is. *)
Theorem target_respawn_rules s ev :
  targetCell (step s ev)
  = match ev with
    | Click row col d =>
        match resolveClick s row col with
        | Hit => Some (spawned d)
        | _ => targetCell s
        end
    | TargetCheck d =>
        if timersRunning s && negb (powerUpActive s)
        then match targetCell s with
             | Some _ => Some (spawned d)
             | None => None
             end
        else targetCell s
    | TogglePlay d =>
        if negb (gameOver s) && negb (isPlaying s)
        then Some (spawned d) else targetCell s
    | NewGame d =>
        if gameOver s && isPlaying s then Some (spawned d) else targetCell s
    | WaveTick _ _ | ColorTick | PowerUpRoll _ | PowerUpOff => targetCell s
    end.
Proof.
  destruct ev as [position random| |d|r| |row col d|d|d]; scheduler.
  - callback. by branches.
  - callback. by branches.
  - destruct s as [g cc ip sp di sc hs lv co tc li go wp df pu].
    destruct tc as [t|], ip, go, pu; callback; try done; by branches.
  - callback. by branches.
  - done.
  - unfold handleCellClick.
    destruct (resolveClick s row col); try done; callback; branches; done.
  - destruct s as [g cc ip sp di sc hs lv co tc li go wp df pu].
    by destruct ip, go.
  - destruct s as [g cc ip sp di sc hs lv co tc li go wp df pu].
    by destruct ip, go.
Qed.

(** X22.  A wave tick of a running game reverses the direction exactly
    when it fires at the last position [cols - 1] (the counter wraps to 0),
    and changes none of score, combo, lives, level and target. *)
Theorem wave_tick_flips_direction_at_last_position s position random :
  timersRunning s = true -> 0 <= position < cols ->
  let s' := step s (WaveTick position random) in
  direction s'
  = (if position =? cols - 1 then - direction s else direction s)
  /\ score s' = score s /\ combo s' = combo s /\ lives s' = lives s
  /\ level s' = level s /\ targetCell s' = targetCell s.
Proof.
  intros Hrun Hp. scheduler. rewrite Hrun. callback.
  destruct (Z.eqb_spec (Z.rem (position + 1) cols) 0) as [E|E];
    destruct (Z.eqb_spec position (cols - 1)) as [E'|E']; fields;
    try (repeat split; try done; lia);
    exfalso; unfold cols in *; revert E; Z.to_euclidean_division_equations; lia.
Qed.

Lemma wave_tick_flips_direction_at_last_position_witness :
  direction (step lit_state (WaveTick 19 no_random))
  = (if 19 =? cols - 1 then - direction lit_state else direction lit_state).
Proof.
  assert (Hrun : timersRunning lit_state = true) by (vm_compute; reflexivity).
  assert (Hp : 0 <= 19 < cols) by (by vm_compute).
  destruct (wave_tick_flips_direction_at_last_position lit_state 19 no_random
              Hrun Hp) as (Hd & _).
  exact Hd.
Defined.

(** X23.  [n] colour ticks of a running game advance the colour index by
    [n] modulo the 5 colours of the palette, so 5 ticks bring the colour
    back; they leave score, lives, grid and target as they are. *)
Theorem colour_ticks_cycle_the_palette s n :
  timersRunning s = true -> 0 <= currentColor s < 5 ->
  let s' := run s (replicate n ColorTick) in
  currentColor s' = (currentColor s + Z.of_nat n) mod 5
  /\ (n = 5%nat -> currentColor s' = currentColor s)
  /\ timersRunning s' = true
  /\ score s' = score s /\ lives s' = lives s /\ grid s' = grid s
  /\ targetCell s' = targetCell s.
Proof.
  revert s. induction n as [|n IH]; intros s Hrun Hc.
  - cbn [replicate run foldl]. rewrite Z.add_0_r, Z.mod_small by lia.
    by repeat split.
  - cbn [replicate run foldl]. fold (run (step s ColorTick) (replicate n ColorTick)).
    assert (Hstep : step s ColorTick
                    = setCurrentColor (fun prev => Z.rem (prev + 1) 5) s).
    { scheduler. by rewrite Hrun. }
    assert (Hrun1 : timersRunning (step s ColorTick) = true)
      by (rewrite Hstep; exact Hrun).
    assert (Hc1 : currentColor (step s ColorTick) = (currentColor s + 1) mod 5).
    { rewrite Hstep. fields. apply Z.rem_mod_nonneg; lia. }
    destruct (IH (step s ColorTick) Hrun1) as (Hcc & _ & Hr & Hs & Hl & Hg & Ht).
    { rewrite Hc1. apply Z.mod_pos_bound. lia. }
    assert (Hcc' : currentColor (run (step s ColorTick) (replicate n ColorTick))
                   = (currentColor s + Z.of_nat (S n)) mod 5).
    { rewrite Hcc, Hc1, Z.add_mod_idemp_l by lia. f_equal. lia. }
    assert (Hframe : score (step s ColorTick) = score s
                     /\ lives (step s ColorTick) = lives s
                     /\ grid (step s ColorTick) = grid s
                     /\ targetCell (step s ColorTick) = targetCell s)
      by (by rewrite Hstep).
    destruct Hframe as (Hs1 & Hl1 & Hg1 & Ht1).
    rewrite Hs1 in Hs. rewrite Hl1 in Hl. rewrite Hg1 in Hg. rewrite Ht1 in Ht.
    split; [exact Hcc'|]. split; [|exact (conj Hr (conj Hs (conj Hl (conj Hg Ht))))].
    intros [= ->]. rewrite Hcc'.
    change (Z.of_nat 5) with 5. rewrite <- (Z.add_mod_idemp_r _ 5) by lia.
    rewrite Z.mod_same, Z.add_0_r by lia. apply Z.mod_small. lia.
Qed.

Lemma colour_ticks_cycle_the_palette_witness :
  currentColor (run lit_state (replicate 5 ColorTick)) = currentColor lit_state.
Proof.
  assert (Hrun : timersRunning lit_state = true) by (vm_compute; reflexivity).
  assert (Hc : 0 <= currentColor lit_state < 5) by (by vm_compute).
  destruct (colour_ticks_cycle_the_palette lit_state 5 Hrun Hc) as (_ & H & _).
  exact (H eq_refl).
Defined.

(** Wave ticks before the last position leave the direction alone. *)
Lemma wave_ticks_keep_direction s (random : Z -> Z -> Q) ps :
  timersRunning s = true -> Forall (fun p => 0 <= p < cols - 1) ps ->
  let s' := run s ((fun p => WaveTick p (random p)) <$> ps) in
  timersRunning s' = true /\ direction s' = direction s
  /\ score s' = score s /\ lives s' = lives s /\ targetCell s' = targetCell s.
Proof.
  intros Hrun Hps. revert s Hrun.
  induction Hps as [|p ps Hp Hps IH]; intros s Hrun; [done|].
  cbn [fmap list_fmap run foldl].
  fold (run (step s (WaveTick p (random p)))
            ((fun p => WaveTick p (random p)) <$> ps)).
  assert (Hstep : step s (WaveTick p (random p))
                  = setGrid (fun _ => generate (wavePattern s) (direction s)
                                               (random p)
                                               (Z.rem (p + 1) cols)) s).
  { scheduler. rewrite Hrun. callback.
    destruct (Z.eqb_spec (Z.rem (p + 1) cols) 0) as [E|E]; [|done].
    exfalso. unfold cols in *. revert E. Z.to_euclidean_division_equations. lia. }
  destruct (IH (step s (WaveTick p (random p)))) as (Hr & Hd & Hs & Hl & Ht).
  { by rewrite Hstep. }
  rewrite Hr, Hd, Hs, Hl, Ht, Hstep. done.
Qed.

Lemma run_app s evs1 evs2 : run s (evs1 ++ evs2) = run (run s evs1) evs2.
Proof. apply foldl_app. Qed.

Lemma sweep_last random :
  sweep random
  = ((fun p => WaveTick p (random p)) <$> seqZ 0 (cols - 1))
    ++ [WaveTick (cols - 1) (random (cols - 1))].
Proof. reflexivity. Qed.

(** One sweep from a state whose timers run. *)
Lemma sweep_fields s random :
  timersRunning s = true ->
  let s' := run s (sweep random) in
  timersRunning s' = true /\ direction s' = - direction s
  /\ score s' = score s /\ lives s' = lives s
  /\ targetCell s' = targetCell s.
Proof.
  intros Hrun.
  assert (Hbefore : Forall (fun p => 0 <= p < cols - 1) (seqZ 0 (cols - 1))).
  { apply Forall_forall. intros p Hp. apply elem_of_seqZ in Hp. lia. }
  destruct (wave_ticks_keep_direction s random _ Hrun Hbefore)
    as (Hr & Hd & Hs & Hl & Ht).
  rewrite sweep_last, run_app.
  generalize dependent (run s ((fun p => WaveTick p (random p))
                                 <$> seqZ 0 (cols - 1))).
  intros s1 Hr Hd Hs Hl Ht.
  cbn [run foldl step]. rewrite Hr. unfold timersRunning in *. callback.
  change (Z.rem (cols - 1 + 1) cols =? 0) with true. fields.
  rewrite Hd. repeat split; try done. lia.
Qed.

(** X24.  A full sweep of the wave, one tick at each of the positions
    0 .. [cols - 1], reverses the direction once, so two sweeps restore it;
    score, lives and target are untouched. *)
Theorem full_sweep_reverses_direction s random1 random2 :
  timersRunning s = true ->
  direction (run s (sweep random1)) = - direction s
  /\ direction (run s (sweep random1 ++ sweep random2)) = direction s
  /\ score (run s (sweep random1)) = score s
  /\ lives (run s (sweep random1)) = lives s
  /\ targetCell (run s (sweep random1)) = targetCell s.
Proof.
  intros Hrun.
  destruct (sweep_fields s random1 Hrun) as (Hr1 & Hd1 & Hs1 & Hl1 & Ht1).
  split; [exact Hd1|]. split; [|exact (conj Hs1 (conj Hl1 Ht1))].
  rewrite run_app.
  destruct (sweep_fields (run s (sweep random1)) random2 Hr1) as (_ & Hd2 & _).
  rewrite Hd2, Hd1. lia.
Qed.

Lemma full_sweep_reverses_direction_witness :
  direction (run lit_state (sweep (fun _ => no_random))) = - direction lit_state.
Proof.
  assert (Hrun : timersRunning lit_state = true) by (vm_compute; reflexivity).
  destruct (full_sweep_reverses_direction lit_state (fun _ => no_random)
              (fun _ => no_random) Hrun) as (Hd & _).
  exact Hd.
Defined.

(** One event under a shield that the event does not end. *)
Lemma shielded_step s ev :
  powerUpActive s = true -> keeps_shield ev = true ->
  powerUpActive (step s ev) = true /\ lives (step s ev) = lives s
  /\ gameOver (step s ev) = gameOver s /\ highScore (step s ev) = highScore s.
Proof.
  intros Hu Hev.
  destruct ev as [position random| |d|r| |row col d|d|d];
    try done; scheduler; callback; unfold resolveClick;
    rewrite ?Hu; fields; branches; rewrite ?Hu in *; by cbn [negb] in *.
Qed.

(** X25.  A shield lasts until its delayed callback or a new game ends
    it: over any sequence of other events it stays active, no life is
    lost, the game does not end and the high score stays. *)
Theorem shield_lasts_until_timeout s evs :
  powerUpActive s = true -> forallb keeps_shield evs = true ->
  let s' := run s evs in
  powerUpActive s' = true /\ lives s' = lives s /\ gameOver s' = gameOver s
  /\ highScore s' = highScore s.
Proof.
  revert s. induction evs as [|ev evs IH]; intros s Hu Hevs; [done|].
  cbn [forallb] in Hevs. apply andb_true_iff in Hevs as [Hev Hevs].
  cbn [run foldl]. fold (run (step s ev) evs).
  destruct (shielded_step s ev Hu Hev) as (Hu1 & Hl1 & Ho1 & Hh1).
  destruct (IH (step s ev) Hu1 Hevs) as (Hu2 & Hl2 & Ho2 & Hh2).
  rewrite Hl1 in Hl2. rewrite Ho1 in Ho2. rewrite Hh1 in Hh2.
  exact (conj Hu2 (conj Hl2 (conj Ho2 Hh2))).
Qed.

Lemma shield_lasts_until_timeout_witness :
  powerUpActive s_shielded = true
  /\ lives (run s_shielded [TargetCheck draws1; Click 1 1 draws1;
                            WaveTick 3 no_random; TargetCheck draws1])
     = lives s_shielded.
Proof.
  assert (Hu : powerUpActive s_shielded = true) by reflexivity.
  destruct (shield_lasts_until_timeout s_shielded
              [TargetCheck draws1; Click 1 1 draws1; WaveTick 3 no_random;
               TargetCheck draws1] Hu eq_refl) as (_ & Hl & _).
  exact (conj Hu Hl).
Defined.

(** X26.  The points multiplier shown in the statistics panel is what the
    next hit awards: a hit adds 100 times the multiplier to the score.  In
    a reachable state the multiplier is at least 1 and at most 15 times the
    level. *)
Theorem shown_multiplier_is_awarded s row col d :
  reachable s -> resolveClick s row col = Hit ->
  (score (step s (Click row col d)) == score s + 100 * pointsMultiplier s)%Q
  /\ (1 <= pointsMultiplier s)%Q
  /\ (pointsMultiplier s <= 15 * inject_Z (level s))%Q.
Proof.
  intros Hs Hres.
  destruct (reachable_well_formed s Hs) as (_ & _ & Hcombo & _).
  destruct (reachable_in_bounds s Hs) as (Hlevel & [Hd1 Hd3] & _).
  split.
  - scheduler. unfold handleCellClick. rewrite Hres.
    destruct (hit_counters d s) as (Hscore & _). rewrite Hscore.
    unfold hitPoints, pointsMultiplier. cbv zeta. ring.
  - unfold pointsMultiplier.
    assert (Hc1 : (1 <= inject_Z (Z.min (combo s + 1) 5))%Q).
    { change 1%Q with (inject_Z 1). rewrite <- Zle_Qle. lia. }
    assert (Hc5 : (inject_Z (Z.min (combo s + 1) 5) <= 5)%Q).
    { change 5%Q with (inject_Z 5). rewrite <- Zle_Qle. lia. }
    assert (Hlv : (1 <= inject_Z (level s))%Q).
    { change 1%Q with (inject_Z 1). rewrite <- Zle_Qle. lia. }
    generalize dependent (inject_Z (Z.min (combo s + 1) 5)).
    generalize dependent (inject_Z (level s)).
    generalize dependent (difficulty s). intros dq Hd1 Hd3 l Hl c Hc1 Hc5.
    assert (H1 : (1 <= c * l)%Q) by nra.
    assert (H2 : (c * l <= 5 * l)%Q) by nra.
    split; nra.
Qed.

Lemma shown_multiplier_is_awarded_witness :
  reachable lit_state
  /\ (score (step lit_state (Click 0 1 draws1))
      == score lit_state + 100 * pointsMultiplier lit_state)%Q.
Proof.
  assert (Hres : resolveClick lit_state 0 1 = Hit) by (vm_compute; reflexivity).
  destruct (shown_multiplier_is_awarded lit_state 0 1 draws1
              reachable_lit_state Hres) as (H & _).
  exact (conj reachable_lit_state H).
Defined.
